(** * The RDF vocabulary parser of [tools/exp/rdf]

    A shallow embedding of the vocabulary model ([data.go]) and of the
    JSON-LD traversal engine (the parser file of the same package), with the
    properties of the engine stated and proved over it.

    Conventions of the embedding.
    - Decoded JSON ([interface{}] values produced by a JSON decoder) is the
      inductive type [value].  A Go [map[string]interface{}] is an
      association list: the order of the list is the order in which one
      [range] loop visits the map, which Go leaves unspecified, so every
      statement below holds for every order.  A key lookup returns the first
      binding of the key (a Go map has at most one).
    - Pointers are addresses into a store of objects ([World]); the
      [ParsingContext] and the store are passed explicitly.
    - A handler ([RDFNode]) is a reference to a handler object; what its three
      methods do is given by an environment [impl], a parameter of the
      engine.
    - The engine functions also produce a log of the calls they make.  The
      log is ghost data: no result of the engine depends on it. *)

From Stdlib Require Import ZArith String List Bool Lia.
From stdpp Require Import base option list gmap strings.

Open Scope string_scope.
Open Scope list_scope.
Set Warnings "-register-all".

(** ** Decoded JSON *)

Inductive value :=
| JNull
| JBool (b : bool)
| JNumber (n : Z)   (* a float64 in Go; the engine never inspects it *)
| JString (s : string)
| JArray (l : list value)
| JObject (m : list (string * value)).

(** [input[key]] with its [ok] flag. *)
Fixpoint lookup_key (key : string) (m : list (string * value)) : option value :=
  match m with
  | [] => None
  | (k, v) :: rest => if String.eqb k key then Some v else lookup_key key rest
  end.

(** ** Errors

    One constructor per [fmt.Errorf] of the package, carrying the values the
    message is formatted from; [ErrExternal] stands for the errors that
    handlers and the registry create themselves. *)

Inductive error :=
| ErrTypeNameExists (name : string)
| ErrPropertyNameExists
| ErrValueNameExists
| ErrNoContext
| ErrSingleContextNotString
| ErrContextInDictInArray
| ErrContextInArray
| ErrContextInDict
| ErrRequestedNodeFailed
| ErrNoNodeEntering (key : string)
| ErrNoNodeExiting (key : string)
| ErrNoNodeApplying (key : string) (v : value)
| ErrExternal (msg : string).

(** ** The vocabulary model ([data.go]) *)

(** A parsed [*url.URL]; [None] is the nil pointer. *)
Definition URL := string.

Record VocabularyReference := mkVocabularyReference {
  vr_Name : string;
  vr_URI : option URL;
  vr_Vocab : string
}.

Record VocabularyExample := mkVocabularyExample {
  ve_Name : string;
  ve_URI : option URL;
  ve_Example : value
}.

Record VocabularyValue := mkVocabularyValue {
  vv_Name : string;
  vv_URI : option URL;
  vv_DefinitionType : string;
  vv_Zero : string
}.

Record VocabularyType := mkVocabularyType {
  vt_Name : string;
  vt_URI : option URL;
  vt_Notes : string;
  vt_DisjointWith : list VocabularyReference;
  vt_Extends : list VocabularyReference;
  vt_Properties : list VocabularyReference;
  vt_WithoutProperties : list VocabularyReference;
  vt_Examples : list VocabularyExample
}.

Record VocabularyProperty := mkVocabularyProperty {
  vp_Name : string;
  vp_URI : option URL;
  vp_Notes : string;
  vp_Domain : list VocabularyReference;
  vp_Range : list VocabularyReference;
  vp_Examples : list VocabularyExample;
  vp_SubpropertyOf : VocabularyReference;
  vp_Functional : bool;
  vp_NaturalLanguageMap : bool
}.

(** The three maps of a [Vocabulary]; [None] is the nil map. *)
Record Vocabulary := mkVocabulary {
  Types : option (gmap string VocabularyType);
  Properties : option (gmap string VocabularyProperty);
  Values : option (gmap string VocabularyValue)
}.

Record ParsedVocabulary := mkParsedVocabulary {
  Vocab : Vocabulary;
  References : option (gmap string Vocabulary)
}.

(** Reading a nil map behaves as reading an empty one. *)
Definition entries {A} (m : option (gmap string A)) : gmap string A :=
  match m with
  | Some g => g
  | None => ∅
  end.

(** [SetType], [SetProperty] and [SetValue] have a pointer receiver: they
    take the vocabulary and return it as they leave it, with the error.  The
    argument [a] is the entity the (non-nil) pointer refers to; it is copied
    into the map. *)

Definition SetType (name : string) (a : VocabularyType) (v : Vocabulary)
  : Vocabulary * option error :=
  let v := match Types v with
           | None => mkVocabulary (Some ∅) (Properties v) (Values v)
           | Some _ => v
           end in
  match entries (Types v) !! name with
  | Some _ => (v, Some (ErrTypeNameExists name))
  | None =>
      (mkVocabulary (Some (<[name := a]> (entries (Types v)))) (Properties v) (Values v),
       None)
  end.

Definition SetProperty (name : string) (a : VocabularyProperty) (v : Vocabulary)
  : Vocabulary * option error :=
  let v := match Properties v with
           | None => mkVocabulary (Types v) (Some ∅) (Values v)
           | Some _ => v
           end in
  match entries (Properties v) !! name with
  | Some _ => (v, Some ErrPropertyNameExists)
  | None =>
      (mkVocabulary (Types v) (Some (<[name := a]> (entries (Properties v)))) (Values v),
       None)
  end.

Definition SetValue (name : string) (a : VocabularyValue) (v : Vocabulary)
  : Vocabulary * option error :=
  let v := match Values v with
           | None => mkVocabulary (Types v) (Properties v) (Some ∅)
           | Some _ => v
           end in
  match entries (Values v) !! name with
  | Some _ => (v, Some ErrValueNameExists)
  | None =>
      (mkVocabulary (Types v) (Properties v) (Some (<[name := a]> (entries (Values v)))),
       None)
  end.

(** ** Parsing state *)

(** A handler and a pointer are references. *)
Definition RDFNode := nat.
Definition addr := nat.

(** The objects a pointer can refer to.  The five entity kinds are the
    types of [data.go] whose pointer has a [GetName] method. *)
Inductive object :=
| ObjParsedVocabulary (pv : ParsedVocabulary)
| ObjType (t : VocabularyType)
| ObjProperty (p : VocabularyProperty)
| ObjValue (v : VocabularyValue)
| ObjExample (e : VocabularyExample)
| ObjReference (r : VocabularyReference)
| ObjOther (v : value).

(** The [nameGetter] type assertion on a pointer to [o], followed by the
    call of [GetName]: [None] when the assertion fails. *)
Definition GetName (o : object) : option string :=
  match o with
  | ObjType t => Some (vt_Name t)
  | ObjProperty p => Some (vp_Name p)
  | ObjValue v => Some (vv_Name v)
  | ObjExample e => Some (ve_Name e)
  | ObjReference r => Some (vr_Name r)
  | ObjParsedVocabulary _ | ObjOther _ => None
  end.

(** A value of type [interface{}] held in [Current] or on the [Stack]: nil,
    a pointer to an object, or a plain value. *)
Inductive iface :=
| INil
| IPtr (a : addr)
| IVal (v : value).

Record ParsingContext := mkParsingContext {
  Result : option addr;
  Current : iface;
  Name : string;
  Stack : list iface;
  OnlyApplyThisNodeNextLevel : option RDFNode;
  OnlyApplied : bool;
  OnlyApplyThisNode : option RDFNode
}.

Definition set_Current (c : iface) (p : ParsingContext) : ParsingContext :=
  mkParsingContext (Result p) c (Name p) (Stack p)
    (OnlyApplyThisNodeNextLevel p) (OnlyApplied p) (OnlyApplyThisNode p).
Definition set_Name (n : string) (p : ParsingContext) : ParsingContext :=
  mkParsingContext (Result p) (Current p) n (Stack p)
    (OnlyApplyThisNodeNextLevel p) (OnlyApplied p) (OnlyApplyThisNode p).
Definition set_Stack (s : list iface) (p : ParsingContext) : ParsingContext :=
  mkParsingContext (Result p) (Current p) (Name p) s
    (OnlyApplyThisNodeNextLevel p) (OnlyApplied p) (OnlyApplyThisNode p).
Definition set_OnlyApplyThisNodeNextLevel (n : option RDFNode) (p : ParsingContext)
  : ParsingContext :=
  mkParsingContext (Result p) (Current p) (Name p) (Stack p)
    n (OnlyApplied p) (OnlyApplyThisNode p).
Definition set_OnlyApplied (b : bool) (p : ParsingContext) : ParsingContext :=
  mkParsingContext (Result p) (Current p) (Name p) (Stack p)
    (OnlyApplyThisNodeNextLevel p) b (OnlyApplyThisNode p).
Definition set_OnlyApplyThisNode (n : option RDFNode) (p : ParsingContext)
  : ParsingContext :=
  mkParsingContext (Result p) (Current p) (Name p) (Stack p)
    (OnlyApplyThisNodeNextLevel p) (OnlyApplied p) n.

Definition SetOnlyApplyThisNode (n : RDFNode) (p : ParsingContext) : ParsingContext :=
  set_OnlyApplyThisNode (Some n) p.

Definition ResetOnlyApplyThisNode (p : ParsingContext) : ParsingContext :=
  set_OnlyApplyThisNode None p.

Definition SetOnlyApplyThisNodeNextLevel (n : RDFNode) (p : ParsingContext)
  : ParsingContext :=
  set_OnlyApplied false (set_OnlyApplyThisNodeNextLevel (Some n) p).

(** [GetNextNodes] returns the handlers to use and the closure [clearFn];
    the closure captures the context pointer, so it is a function of the
    context at the time it is run. *)
Definition GetNextNodes (n : list RDFNode) (p : ParsingContext)
  : list RDFNode * (ParsingContext -> ParsingContext) * ParsingContext :=
  match OnlyApplyThisNodeNextLevel p with
  | None => (n, fun q => q, p)
  | Some only =>
      if OnlyApplied p then (n, fun q => q, p)
      else ([only], fun q => set_OnlyApplied false q, set_OnlyApplied true p)
  end.

Definition ResetOnlyAppliedThisNodeNextLevel (p : ParsingContext) : ParsingContext :=
  set_OnlyApplied false (set_OnlyApplyThisNodeNextLevel None p).

Definition Push (p : ParsingContext) : ParsingContext :=
  set_Current INil (set_Stack ([Current p] ++ Stack p) p).

(** A run-time panic of the Go program. *)
Inductive panic :=
| IndexOutOfRange (index len : nat).

Inductive outcome (A : Type) :=
| Returned (a : A)
| Panicked (e : panic).
Arguments Returned {A} a.
Arguments Panicked {A} e.

(** The type assertion [c.(nameGetter)] followed by the call of [GetName]:
    the name when the assertion holds.  The store [h] is where the name is
    read. *)
Definition nameGetter (h : list object) (c : iface) : option string :=
  match c with
  | IPtr a => h !! a ≫= GetName
  | INil | IVal _ => None
  end.

(** [Pop] indexes [p.Stack[0]] first, which panics on an empty stack. *)
Definition Pop (h : list object) (p : ParsingContext) : outcome ParsingContext :=
  match Stack p with
  | [] => Panicked (IndexOutOfRange 0 0)
  | top :: rest =>
      let p := set_Stack rest (set_Current top p) in
      match nameGetter h (Current p) with
      | Some name => Returned (set_Name name p)
      | None => Returned p
      end
  end.

Definition IsReset (p : ParsingContext) : bool :=
  match Current p with
  | INil => String.eqb (Name p) ""
  | _ => false
  end.

Definition Reset (p : ParsingContext) : ParsingContext :=
  set_Name "" (set_Current INil p).

(** ** The traversal engine *)

Definition JSON_LD_CONTEXT : string := "@context".
Definition JSON_LD_TYPE : string := "@type".
Definition JSON_LD_TYPE_AS : string := "type".

(** What a parse can read and write: the context and the store. *)
Record World := mkWorld {
  ctx : ParsingContext;
  heap : list object
}.

Definition set_ctx (p : ParsingContext) (w : World) : World := mkWorld p (heap w).

(** The three methods of a handler.  Each returns its [applied] flag and its
    error, and the world as the call leaves it.  Handlers are assumed to
    return (a handler that panics or loops is outside the model) and not to
    modify the document they are shown. *)
Record NodeImpl := mkNodeImpl {
  Enter : string -> World -> bool * option error * World;
  Exit : string -> World -> bool * option error * World;
  Apply : string -> value -> World -> bool * option error * World
}.

(** *** The log *)

(** One call of a handler method and what it returned. *)
Record Try := mkTry {
  try_node : RDFNode;
  try_applied : bool;
  try_err : option error
}.

Inductive Event :=
| EvKey (k : string) (v : value) (body : list Event)
    (* one call of doApply for the pair (k, v) and what happened inside it *)
| EvEnter (nodes : list RDFNode) (k : string) (tries : list Try)
    (* one call of enterFirstNode *)
| EvExit (nodes : list RDFNode) (k : string) (tries : list Try)
    (* one call of exitFirstNode *)
| EvApply (nodes : list RDFNode) (k : string) (v : value) (tries : list Try)
    (* one call of applyFirstNode *)
| EvOnly (n : RDFNode) (k : string) (v : value) (t : Try).
    (* the call of Apply on the OnlyApplyThisNode handler *)

(** The result of a handler search: the error returned, the world, and the
    calls made, in order. *)
Record Found := mkFound {
  found_world : World;
  found_err : option error;
  found_tries : list Try
}.

(** The result of an engine function. *)
Record Res := mkRes {
  res_world : World;
  res_err : option error;
  res_log : list Event
}.

Definition ok (w : World) : Res := mkRes w None [].

(** [if err := r; err != nil { return err }] followed by [k]. *)
Definition and_then (r : Res) (k : World -> Res) : Res :=
  match res_err r with
  | Some _ => r
  | None =>
      let r' := k (res_world r) in
      mkRes (res_world r') (res_err r') (res_log r ++ res_log r')
  end.

Notation "r ;;; k" := (and_then r k) (at level 61, left associativity).

(** The deferred call of [clearFn], run on every return path. *)
Definition deferred (clearFn : ParsingContext -> ParsingContext) (r : Res) : Res :=
  mkRes (set_ctx (clearFn (ctx (res_world r))) (res_world r)) (res_err r) (res_log r).

(** [for _, val := range arr] and [for k, v := range m], leaving at the
    first error. *)
Definition range_values (body : value -> World -> Res) : list value -> World -> Res :=
  fix go (arr : list value) (w : World) : Res :=
    match arr with
    | [] => ok w
    | val :: rest => body val w ;;; go rest
    end.

Definition range_pairs (body : string -> value -> World -> Res)
  : list (string * value) -> World -> Res :=
  fix go (m : list (string * value)) (w : World) : Res :=
    match m with
    | [] => ok w
    | (k, v) :: rest => body k v w ;;; go rest
    end.

(** [if v, ok := m[key]; ok { found v } else { absent }]. *)
Definition if_key {A} (key : string) (found : value -> A) (absent : A)
  : list (string * value) -> A :=
  fix go (m : list (string * value)) : A :=
    match m with
    | [] => absent
    | (k, v) :: rest => if String.eqb k key then found v else go rest
    end.

Section Engine.

(** The handler objects. *)
Variable impl : RDFNode -> NodeImpl.

Definition found_cons (t : Try) (f : Found) : Found :=
  mkFound (found_world f) (found_err f) (t :: found_tries f).

Fixpoint enterFirstNode (nodes : list RDFNode) (key : string) (w : World) : Found :=
  match nodes with
  | [] => mkFound w (Some (ErrNoNodeEntering key)) []
  | node :: rest =>
      let '(applied, err, w') := Enter (impl node) key w in
      if applied then mkFound w' err [mkTry node applied err]
      else match err with
           | Some _ => mkFound w' err [mkTry node applied err]
           | None => found_cons (mkTry node applied err) (enterFirstNode rest key w')
           end
  end.

Fixpoint exitFirstNode (nodes : list RDFNode) (key : string) (w : World) : Found :=
  match nodes with
  | [] => mkFound w (Some (ErrNoNodeExiting key)) []
  | node :: rest =>
      let '(applied, err, w') := Exit (impl node) key w in
      if applied then mkFound w' err [mkTry node applied err]
      else match err with
           | Some _ => mkFound w' err [mkTry node applied err]
           | None => found_cons (mkTry node applied err) (exitFirstNode rest key w')
           end
  end.

Fixpoint applyFirstNode (nodes : list RDFNode) (key : string) (v : value) (w : World)
  : Found :=
  match nodes with
  | [] => mkFound w (Some (ErrNoNodeApplying key v)) []
  | node :: rest =>
      let '(applied, err, w') := Apply (impl node) key v w in
      if applied then mkFound w' err [mkTry node applied err]
      else match err with
           | Some _ => mkFound w' err [mkTry node applied err]
           | None => found_cons (mkTry node applied err) (applyFirstNode rest key v w')
           end
  end.

(** The three searches as steps of the traversal, each logged as one
    event. *)
Definition entering (nodes : list RDFNode) (k : string) (w : World) : Res :=
  let f := enterFirstNode nodes k w in
  mkRes (found_world f) (found_err f) [EvEnter nodes k (found_tries f)].

Definition exiting (nodes : list RDFNode) (k : string) (w : World) : Res :=
  let f := exitFirstNode nodes k w in
  mkRes (found_world f) (found_err f) [EvExit nodes k (found_tries f)].

Definition applying (nodes : list RDFNode) (k : string) (v : value) (w : World) : Res :=
  let f := applyFirstNode nodes k v w in
  mkRes (found_world f) (found_err f) [EvApply nodes k v (found_tries f)].

(** The body of [apply], with the function it calls on each pair as a
    parameter: [apply] and [doApply] call each other, and [doApply] is
    defined by recursion on the value. *)
Definition apply_with (doApply : string -> value -> World -> Res)
  (input : list (string * value)) (w : World) : Res :=
  match OnlyApplyThisNode (ctx w) with
  | Some only =>
      let '(applied, err, w') := Apply (impl only) "" (JObject input) w in
      mkRes w' (if applied then err else Some ErrRequestedNodeFailed)
        [EvOnly only "" (JObject input) (mkTry only applied err)]
  | None =>
      if_key JSON_LD_TYPE
        (fun v => doApply JSON_LD_TYPE v w)
        (if_key JSON_LD_TYPE_AS
           (fun v => doApply JSON_LD_TYPE_AS v w)
           (ok w)
           input)
        input
      ;;; range_pairs
            (fun k v w =>
               if String.eqb k JSON_LD_CONTEXT then ok w
               else if String.eqb k JSON_LD_TYPE then ok w
               else if String.eqb k JSON_LD_TYPE_AS then ok w
               else doApply k v w)
            input
  end.

Definition keyed (k : string) (v : value) (r : Res) : Res :=
  mkRes (res_world r) (res_err r) [EvKey k v (res_log r)].

Fixpoint doApply (nodes : list RDFNode) (k : string) (v : value) (w : World)
  {struct v} : Res :=
  let recurNodes := nodes in
  let '(enterApplyExitNodes, clearFn, p) := GetNextNodes nodes (ctx w) in
  let w := set_ctx p w in
  keyed k v (deferred clearFn
    match v with
    | JObject mapValue =>
        entering enterApplyExitNodes k w
        ;;; apply_with (doApply recurNodes) mapValue
        ;;; exiting enterApplyExitNodes k
    | JArray arrValue =>
        range_values
          (fun val w =>
             entering enterApplyExitNodes k w
             ;;; (fun w =>
                    match val with
                    | JObject mapValue => apply_with (doApply recurNodes) mapValue w
                    | _ => applying enterApplyExitNodes k val w
                    end)
             ;;; exiting enterApplyExitNodes k)
          arrValue w
    | _ => applying enterApplyExitNodes k v w
    end).

Definition apply (nodes : list RDFNode) (input : list (string * value)) (w : World)
  : Res :=
  apply_with (doApply nodes) input w.

End Engine.

(** ** Context resolution and the entry point *)

(** The registry is a collaborator of the package: its three lookups and
    the list of built-in JSON-LD handlers it yields ([jsonLDNodes]) are taken
    as given.  Each lookup returns a handler list and an error, as in Go. *)
Record RDFRegistry := mkRDFRegistry {
  getFor : string -> list RDFNode * option error;
  getAliased : string -> string -> list RDFNode * option error;
  getAliasedObject : string -> list (string * value) -> list RDFNode * option error;
  jsonLDNodes : list RDFNode
}.

(** A loop that appends to [nodes] and returns at the first error with the
    nodes gathered so far. *)
Fixpoint gather {A} (step : A -> list RDFNode -> list RDFNode * option error)
  (l : list A) (nodes : list RDFNode) : list RDFNode * option error :=
  match l with
  | [] => (nodes, None)
  | x :: rest =>
      let '(nodes', err) := step x nodes in
      match err with
      | Some _ => (nodes', err)
      | None => gather step rest nodes'
      end
  end.

(** [n, err = lookup; if err != nil { return }; nodes = append(nodes, n...)]. *)
Definition appending (r : list RDFNode * option error) (nodes : list RDFNode)
  : list RDFNode * option error :=
  let '(n, err) := r in
  match err with
  | Some _ => (nodes, err)
  | None => (nodes ++ n, None)
  end.

Definition parseJSONLDContext (registry : RDFRegistry) (input : list (string * value))
  : list RDFNode * option error :=
  match lookup_key JSON_LD_CONTEXT input with
  | None => ([], Some ErrNoContext)
  | Some i =>
      match i with
      | JArray inArray =>
          gather
            (fun iVal nodes =>
               match iVal with
               | JObject valMap =>
                   gather
                     (fun '(alias, val) nodes =>
                        match val with
                        | JString s => appending (getAliased registry alias s) nodes
                        | JObject aliasedMap =>
                            appending (getAliasedObject registry alias aliasedMap) nodes
                        | _ => (nodes, Some ErrContextInDictInArray)
                        end)
                     valMap nodes
               | JString s => appending (getFor registry s) nodes
               | _ => (nodes, Some ErrContextInArray)
               end)
            inArray []
      | JObject inMap =>
          gather
            (fun '(alias, iVal) nodes =>
               match iVal with
               | JString s => appending (getAliased registry alias s) nodes
               | JObject aliasedMap =>
                   appending (getAliasedObject registry alias aliasedMap) nodes
               | _ => (nodes, Some ErrContextInDict)
               end)
            inMap []
      | _ =>
          (* s, ok := i.(string): the zero value of string when not ok *)
          let '(s, isString) := match i with
                                | JString s => (s, true)
                                | _ => ("", false)
                                end in
          (* the assignment to err in the !ok branch ... *)
          let err := if isString then None else Some ErrSingleContextNotString in
          (* ... is overwritten by this return of both results *)
          getFor registry s
      end
  end.

(** What [ParseVocabulary] returns, and the store and the log at that
    point. *)
Record Parsed := mkParsed {
  vocabulary : option addr;
  parse_err : option error;
  parse_heap : list object;
  parse_log : list Event
}.

Definition empty_ParsedVocabulary : ParsedVocabulary :=
  mkParsedVocabulary (mkVocabulary None None None) None.

(** [h] is the store when [ParseVocabulary] is called; [&ParsedVocabulary{}]
    allocates at the next free address. *)
Definition ParseVocabulary (impl : RDFNode -> NodeImpl) (registry : RDFRegistry)
  (input : list (string * value)) (h : list object) : Parsed :=
  let '(nodes, err) := parseJSONLDContext registry input in
  match err with
  | Some _ => mkParsed None err h []
  | None =>
      let vocabulary := length h in
      let h := h ++ [ObjParsedVocabulary empty_ParsedVocabulary] in
      let ctx := mkParsingContext (Some vocabulary) INil "" [] None false None in
      let nodes := jsonLDNodes registry ++ nodes in
      let r := apply impl nodes input (mkWorld ctx h) in
      mkParsed (Some vocabulary) (res_err r) (heap (res_world r)) (res_log r)
  end.

(** ** Vocabulary of the statements *)

(** The three handler operations, to speak of the three searches at once. *)
Inductive Op :=
| OpEnter
| OpExit
| OpApply (v : value).

Definition call (impl : RDFNode -> NodeImpl) (op : Op) (node : RDFNode) (key : string)
  (w : World) : bool * option error * World :=
  match op with
  | OpEnter => Enter (impl node) key w
  | OpExit => Exit (impl node) key w
  | OpApply v => Apply (impl node) key v w
  end.

Definition firstNode (impl : RDFNode -> NodeImpl) (op : Op) (nodes : list RDFNode)
  (key : string) (w : World) : Found :=
  match op with
  | OpEnter => enterFirstNode impl nodes key w
  | OpExit => exitFirstNode impl nodes key w
  | OpApply v => applyFirstNode impl nodes key v w
  end.

Definition no_node (op : Op) (key : string) : error :=
  match op with
  | OpEnter => ErrNoNodeEntering key
  | OpExit => ErrNoNodeExiting key
  | OpApply v => ErrNoNodeApplying key v
  end.

(** [Declined impl op key ns w w']: called one after the other from world
    [w], every handler of [ns] reports "not handled" and no error, and the
    last call leaves the world [w']. *)
Inductive Declined (impl : RDFNode -> NodeImpl) (op : Op) (key : string)
  : list RDFNode -> World -> World -> Prop :=
| Declined_nil w : Declined impl op key [] w w
| Declined_cons n ns w w1 w2 :
    call impl op n key w = (false, None, w1) ->
    Declined impl op key ns w1 w2 ->
    Declined impl op key (n :: ns) w w2.

Definition declined_try (n : RDFNode) : Try := mkTry n false None.

(** The pairs for which [doApply] was called at the top level of a log. *)
Definition keys_of (log : list Event) : list (string * value) :=
  flat_map (fun e => match e with
                     | EvKey k v _ => [(k, v)]
                     | _ => []
                     end) log.

Definition is_key (e : Event) : bool :=
  match e with
  | EvKey _ _ _ => true
  | _ => false
  end.

Definition is_only (e : Event) : bool :=
  match e with
  | EvOnly _ _ _ _ => true
  | _ => false
  end.

(** The order in which [apply] dispatches the pairs of an object: the type
    key first ([@type], or [type] when there is no [@type]), then the pairs
    of the object in the order of the [range] loop, without [@context],
    [@type] and [type]. *)
Definition type_pair (m : list (string * value)) : list (string * value) :=
  match lookup_key JSON_LD_TYPE m with
  | Some v => [(JSON_LD_TYPE, v)]
  | None =>
      match lookup_key JSON_LD_TYPE_AS m with
      | Some v => [(JSON_LD_TYPE_AS, v)]
      | None => []
      end
  end.

Definition ordinary (kv : string * value) : bool :=
  negb (String.eqb (fst kv) JSON_LD_CONTEXT)
  && negb (String.eqb (fst kv) JSON_LD_TYPE)
  && negb (String.eqb (fst kv) JSON_LD_TYPE_AS).

Definition dispatch_order (m : list (string * value)) : list (string * value) :=
  type_pair m ++ List.filter ordinary m.

(** What a log of dispatches says about the pairs dispatched: [L] is the
    sequence expected of a run [r]. *)
Definition follows (L : list (string * value)) (r : Res) : Prop :=
  forallb is_key (res_log r) = true
  /\ (exists rest, L = keys_of (res_log r) ++ rest)
  /\ (res_err r = None -> keys_of (res_log r) = L).

(** The handlers an element of an array-valued [@context] resolves to, and
    those of one alias/value pair of a mapping element; [None] when the
    registry or the shape of the element gives an error. *)
Definition resolved (r : list RDFNode * option error) : option (list RDFNode) :=
  match r with
  | (n, None) => Some n
  | (_, Some _) => None
  end.

Definition pair_nodes (registry : RDFRegistry) (kv : string * value)
  : option (list RDFNode) :=
  match snd kv with
  | JString s => resolved (getAliased registry (fst kv) s)
  | JObject o => resolved (getAliasedObject registry (fst kv) o)
  | _ => None
  end.

Definition element_nodes (registry : RDFRegistry) (iVal : value) : option (list RDFNode) :=
  match iVal with
  | JString s => resolved (getFor registry s)
  | JObject valMap => @concat RDFNode <$> mapM (pair_nodes registry) valMap
  | _ => None
  end.

(** The world in which [ParseVocabulary] starts the traversal. *)
Definition initial_world (h : list object) : World :=
  mkWorld (mkParsingContext (Some (length h)) INil "" [] None false None)
          (h ++ [ObjParsedVocabulary empty_ParsedVocabulary]).

(** Counting the calls of [enterFirstNode] and [exitFirstNode] for a key at
    the top level of a log. *)
Definition is_enter (k : string) (e : Event) : bool :=
  match e with
  | EvEnter _ k' _ => String.eqb k' k
  | _ => false
  end.

Definition is_exit (k : string) (e : Event) : bool :=
  match e with
  | EvExit _ k' _ => String.eqb k' k
  | _ => false
  end.

Definition count (f : Event -> bool) (log : list Event) : nat :=
  length (List.filter f log).


(** The handler lists searched by the enter, exit and apply events of a
    log: by the events at its top level ([level_lists]), and by all the
    events inside the dispatches it contains ([nested_lists]). *)
Definition searched (e : Event) : list (list RDFNode) :=
  match e with
  | EvEnter ns _ _ | EvExit ns _ _ | EvApply ns _ _ _ => [ns]
  | EvKey _ _ _ | EvOnly _ _ _ _ => []
  end.

Fixpoint searched_deep (e : Event) : list (list RDFNode) :=
  match e with
  | EvKey _ _ body => flat_map searched_deep body
  | EvEnter ns _ _ | EvExit ns _ _ | EvApply ns _ _ _ => [ns]
  | EvOnly _ _ _ _ => []
  end.

Definition nested (e : Event) : list (list RDFNode) :=
  match e with
  | EvKey _ _ body => flat_map searched_deep body
  | _ => []
  end.

Definition level_lists (log : list Event) : list (list RDFNode) := flat_map searched log.
Definition nested_lists (log : list Event) : list (list RDFNode) := flat_map nested log.

(** The next-level override: its two fields, and the state in which the
    next [GetNextNodes] hands out the override handler.  Once handed out, the
    state is [(Some n, true)]. *)
Definition override (p : ParsingContext) : option RDFNode * bool :=
  (OnlyApplyThisNodeNextLevel p, OnlyApplied p).

Definition armed (n : RDFNode) (p : ParsingContext) : Prop := override p = (Some n, false).

(** No handler sets or resets the next-level override. *)
Definition quiet (impl : RDFNode -> NodeImpl) : Prop :=
  forall op node key w,
    override (ctx (snd (call impl op node key w))) = override (ctx w).

(** A run that leaves the override in state [c], whose own searches use
    the list [top] and whose nested dispatches use [nodes] throughout. *)
Definition runs (nodes top : list RDFNode) (c : option RDFNode * bool) (r : Res) : Prop :=
  override (ctx (res_world r)) = c
  /\ Forall (eq top) (level_lists (res_log r))
  /\ Forall (eq nodes) (nested_lists (res_log r)).

(** A run made of dispatches only, all of which use [nodes] throughout. *)
Definition inner (nodes : list RDFNode) (c : option RDFNode * bool) (r : Res) : Prop :=
  override (ctx (res_world r)) = c
  /\ forallb (fun e => is_key e || is_only e) (res_log r) = true
  /\ Forall (eq nodes) (flat_map searched_deep (res_log r)).

(** With no override set, or with the override consumed, [GetNextNodes]
    hands out the full list and nothing is deferred. *)
Definition full (c : option RDFNode * bool) : Prop := fst c = None \/ snd c = true.

(** ** A small handler set

    Four handlers and a registry on which the engine is run on concrete
    documents below. *)

(** Recognises no key. *)
Definition declines : NodeImpl :=
  mkNodeImpl (fun _ w => (false, None, w))
             (fun _ w => (false, None, w))
             (fun _ _ w => (false, None, w)).

(** Handles every key and changes nothing. *)
Definition accepts : NodeImpl :=
  mkNodeImpl (fun _ w => (true, None, w))
             (fun _ w => (true, None, w))
             (fun _ _ w => (true, None, w)).

(** Fails on every key without handling it. *)
Definition fails : NodeImpl :=
  mkNodeImpl (fun _ w => (false, Some (ErrExternal "boom"), w))
             (fun _ w => (false, Some (ErrExternal "boom"), w))
             (fun _ _ w => (false, Some (ErrExternal "boom"), w)).

Definition named_type (s : string) : VocabularyType :=
  mkVocabularyType s None "" [] [] [] [] [].

(** Handles the key ["name"]: its string value names a new type, which is
    inserted into the vocabulary that [Result] points to. *)
Definition names : NodeImpl :=
  mkNodeImpl
    (fun key w => (String.eqb key "name", None, w))
    (fun key w => (String.eqb key "name", None, w))
    (fun key v w =>
       if String.eqb key "name" then
         match v, Result (ctx w) with
         | JString s, Some a =>
             match heap w !! a with
             | Some (ObjParsedVocabulary pv) =>
                 let '(vocab, err) := SetType s (named_type s) (Vocab pv) in
                 (true, err,
                  mkWorld (ctx w)
                    (<[a := ObjParsedVocabulary (mkParsedVocabulary vocab (References pv))]>
                       (heap w)))
             | _ => (true, Some (ErrExternal "no result"), w)
             end
         | _, _ => (true, Some (ErrExternal "name is not a string"), w)
         end
       else (false, None, w)).

Definition demo_impl (n : RDFNode) : NodeImpl :=
  match n with
  | 1 => accepts
  | 2 => fails
  | 3 => names
  | _ => declines
  end.

(** Knows the ontologies ["A"] (handler 3) and ["B"] (handler 1), under any
    alias; handler 0 is the built-in one. *)
Definition demo_registry : RDFRegistry :=
  mkRDFRegistry
    (fun s => if String.eqb s "A" then ([3], None)
              else if String.eqb s "B" then ([1], None)
              else ([], Some (ErrExternal "unknown ontology")))
    (fun alias s => if String.eqb s "A" then ([3], None)
                    else if String.eqb s "B" then ([1], None)
                    else ([], Some (ErrExternal "unknown ontology")))
    (fun alias o => ([], Some (ErrExternal "unknown ontology")))
    [0].

(** The same registry, registering handler 1 under the empty name too. *)
Definition lenient_registry : RDFRegistry :=
  mkRDFRegistry
    (fun s => if String.eqb s "" then ([1], None) else getFor demo_registry s)
    (getAliased demo_registry)
    (getAliasedObject demo_registry)
    [0].

Definition fresh_ctx : ParsingContext :=
  mkParsingContext None INil "" [] None false None.

(** ** The entity methods of [data.go]

    Each function is a type assertion on a pointer to the object followed by
    the call of the method: [None] when the object's type does not have the
    method, otherwise the object as the call leaves it.  [SetName],
    [GetName] and [SetURI] exist for the five entity types, [SetNotes] and
    [AddExample] for types and properties. *)

Definition SetName (s : string) (o : object) : option object :=
  match o with
  | ObjType t =>
      Some (ObjType (mkVocabularyType s (vt_URI t) (vt_Notes t) (vt_DisjointWith t)
                       (vt_Extends t) (vt_Properties t) (vt_WithoutProperties t)
                       (vt_Examples t)))
  | ObjProperty p =>
      Some (ObjProperty (mkVocabularyProperty s (vp_URI p) (vp_Notes p) (vp_Domain p)
                           (vp_Range p) (vp_Examples p) (vp_SubpropertyOf p)
                           (vp_Functional p) (vp_NaturalLanguageMap p)))
  | ObjValue v =>
      Some (ObjValue (mkVocabularyValue s (vv_URI v) (vv_DefinitionType v) (vv_Zero v)))
  | ObjExample e => Some (ObjExample (mkVocabularyExample s (ve_URI e) (ve_Example e)))
  | ObjReference r => Some (ObjReference (mkVocabularyReference s (vr_URI r) (vr_Vocab r)))
  | ObjParsedVocabulary _ | ObjOther _ => None
  end.

(** [url.Parse] is a function of the Go library: it is a parameter here, with
    its two results.  [SetURI] stores the first, whatever the second is, and
    returns the second. *)
Definition SetURI (url_Parse : string -> option URL * option error) (s : string)
  (o : object) : option (object * option error) :=
  let '(u, e) := url_Parse s in
  match o with
  | ObjType t =>
      Some (ObjType (mkVocabularyType (vt_Name t) u (vt_Notes t) (vt_DisjointWith t)
                       (vt_Extends t) (vt_Properties t) (vt_WithoutProperties t)
                       (vt_Examples t)), e)
  | ObjProperty p =>
      Some (ObjProperty (mkVocabularyProperty (vp_Name p) u (vp_Notes p) (vp_Domain p)
                           (vp_Range p) (vp_Examples p) (vp_SubpropertyOf p)
                           (vp_Functional p) (vp_NaturalLanguageMap p)), e)
  | ObjValue v =>
      Some (ObjValue (mkVocabularyValue (vv_Name v) u (vv_DefinitionType v) (vv_Zero v)), e)
  | ObjExample x => Some (ObjExample (mkVocabularyExample (ve_Name x) u (ve_Example x)), e)
  | ObjReference r =>
      Some (ObjReference (mkVocabularyReference (vr_Name r) u (vr_Vocab r)), e)
  | ObjParsedVocabulary _ | ObjOther _ => None
  end.

Definition SetNotes (s : string) (o : object) : option object :=
  match o with
  | ObjType t =>
      Some (ObjType (mkVocabularyType (vt_Name t) (vt_URI t) s (vt_DisjointWith t)
                       (vt_Extends t) (vt_Properties t) (vt_WithoutProperties t)
                       (vt_Examples t)))
  | ObjProperty p =>
      Some (ObjProperty (mkVocabularyProperty (vp_Name p) (vp_URI p) s (vp_Domain p)
                           (vp_Range p) (vp_Examples p) (vp_SubpropertyOf p)
                           (vp_Functional p) (vp_NaturalLanguageMap p)))
  | _ => None
  end.

(** [e] is the example the pointer argument refers to; it is copied. *)
Definition AddExample (e : VocabularyExample) (o : object) : option object :=
  match o with
  | ObjType t =>
      Some (ObjType (mkVocabularyType (vt_Name t) (vt_URI t) (vt_Notes t)
                       (vt_DisjointWith t) (vt_Extends t) (vt_Properties t)
                       (vt_WithoutProperties t) (vt_Examples t ++ [e])))
  | ObjProperty p =>
      Some (ObjProperty (mkVocabularyProperty (vp_Name p) (vp_URI p) (vp_Notes p)
                           (vp_Domain p) (vp_Range p) (vp_Examples p ++ [e])
                           (vp_SubpropertyOf p) (vp_Functional p)
                           (vp_NaturalLanguageMap p)))
  | _ => None
  end.

(** The fields the four setters write, read off an object. *)
Definition URI_of (o : object) : option (option URL) :=
  match o with
  | ObjType t => Some (vt_URI t)
  | ObjProperty p => Some (vp_URI p)
  | ObjValue v => Some (vv_URI v)
  | ObjExample e => Some (ve_URI e)
  | ObjReference r => Some (vr_URI r)
  | ObjParsedVocabulary _ | ObjOther _ => None
  end.

Definition Notes_of (o : object) : option string :=
  match o with
  | ObjType t => Some (vt_Notes t)
  | ObjProperty p => Some (vp_Notes p)
  | _ => None
  end.

Definition Examples_of (o : object) : option (list VocabularyExample) :=
  match o with
  | ObjType t => Some (vt_Examples t)
  | ObjProperty p => Some (vp_Examples p)
  | _ => None
  end.

(** ** Further vocabulary of the statements *)

(** [n] calls of [Push], and [n] calls of [Pop] that stop at the first
    panic. *)
Fixpoint pushes (n : nat) (p : ParsingContext) : ParsingContext :=
  match n with
  | 0 => p
  | S n => Push (pushes n p)
  end.

Fixpoint pops (h : list object) (n : nat) (p : ParsingContext) : outcome ParsingContext :=
  match n with
  | 0 => Returned p
  | S n =>
      match Pop h p with
      | Returned q => pops h n q
      | Panicked e => Panicked e
      end
  end.

(** A call that ended a handler search: the handler reported "handled" or
    returned an error.  A search is settled when it holds such a call; it
    is claimed when a handler reported "handled" and returned no error. *)
Definition decided (t : Try) : bool :=
  try_applied t || match try_err t with Some _ => true | None => false end.

Definition settled (f : Found) : bool := existsb decided (found_tries f).

Definition claimed_by (t : Try) : bool :=
  try_applied t && match try_err t with Some _ => false | None => true end.

(** Every search recorded in an event, at any depth, was claimed. *)
Fixpoint claimed (e : Event) : bool :=
  match e with
  | EvKey _ _ body => forallb claimed body
  | EvEnter _ _ tries | EvExit _ _ tries | EvApply _ _ _ tries => existsb claimed_by tries
  | EvOnly _ _ _ t => claimed_by t
  end.

(** The error, if any, that one alias/value pair of a mapping gives in
    context resolution; [malformed] is the error for a value that is neither
    a string nor a mapping. *)
Definition pair_failure (registry : RDFRegistry) (malformed : error) (kv : string * value)
  : option error :=
  match snd kv with
  | JString s => snd (getAliased registry (fst kv) s)
  | JObject o => snd (getAliasedObject registry (fst kv) o)
  | _ => Some malformed
  end.

(** The same state up to the flag [OnlyApplied]. *)
Definition same_but_OnlyApplied (w1 w2 : World) : Prop :=
  heap w1 = heap w2
  /\ set_OnlyApplied false (ctx w1) = set_OnlyApplied false (ctx w2).

(** No handler changes anything. *)
Definition read_only (impl : RDFNode -> NodeImpl) : Prop :=
  forall op node key w, snd (call impl op node key w) = w.

(** ** The keys of a dispatch step *)

(** The keys that occur inside a value, at any depth. *)
Fixpoint keys_deep (v : value) : list string :=
  match v with
  | JArray l => flat_map keys_deep l
  | JObject m => flat_map (fun '(k, x) => k :: keys_deep x) m
  | _ => []
  end.

(** The keys with which handlers can be called during [doApply] of the pair
    [(k, v)]: the key [k], the keys inside [v], and the empty key with which
    a whole object is handed to the [OnlyApplyThisNode] handler. *)
Definition step_keys (k : string) (v : value) : list string :=
  "" :: k :: keys_deep v.

(** No handler sets or resets the next-level override when it is called
    with one of the keys [keys]. *)
Definition quiet_in (keys : list string) (impl : RDFNode -> NodeImpl) : Prop :=
  forall op node key w,
    In key keys ->
    override (ctx (snd (call impl op node key w))) = override (ctx w).

(** Two handler environments that behave alike on the keys [keys]. *)
Definition agree (keys : list string) (impl impl' : RDFNode -> NodeImpl) : Prop :=
  forall op node key w,
    In key keys -> call impl op node key w = call impl' op node key w.

(** The handlers of [impl] cut down to the keys [keys]: with any other key
    they decline and change nothing. *)
Definition restrict (keys : list string) (impl : RDFNode -> NodeImpl) (node : RDFNode)
  : NodeImpl :=
  mkNodeImpl
    (fun key w =>
       if existsb (String.eqb key) keys then Enter (impl node) key w else (false, None, w))
    (fun key w =>
       if existsb (String.eqb key) keys then Exit (impl node) key w else (false, None, w))
    (fun key v w =>
       if existsb (String.eqb key) keys then Apply (impl node) key v w
       else (false, None, w)).

(** The key that an enter, exit or apply search is for. *)
Definition search_key (e : Event) : option string :=
  match e with
  | EvEnter _ k _ | EvExit _ k _ | EvApply _ k _ _ => Some k
  | EvKey _ _ _ | EvOnly _ _ _ _ => None
  end.

(** ** A handler that claims one level

    Handler 5 handles every key.  On entering the key ["outer"] it sets the
    next-level override to itself, and on leaving ["outer"] it resets it:
    the pairs directly under ["outer"] are to be its own. *)
Definition scopes : NodeImpl :=
  mkNodeImpl
    (fun key w =>
       if String.eqb key "outer"
       then (true, None, set_ctx (SetOnlyApplyThisNodeNextLevel 5 (ctx w)) w)
       else (true, None, w))
    (fun key w =>
       if String.eqb key "outer"
       then (true, None, set_ctx (ResetOnlyAppliedThisNodeNextLevel (ctx w)) w)
       else (true, None, w))
    (fun key v w => (true, None, w)).

Definition scoped_impl (n : RDFNode) : NodeImpl :=
  match n with
  | 5 => scopes
  | _ => demo_impl n
  end.

(** ** Properties of the vocabulary model *)

Lemma entries_Some {A} (m : option (gmap string A)) (name : string) :
  is_Some (entries m !! name) -> exists g, m = Some g.
Proof.
  destruct m as [g|]; [eauto|].
  cbn. rewrite lookup_empty. intros [x Hx]. discriminate.
Qed.

Lemma SetType_present (v : Vocabulary) (name : string) (a : VocabularyType) :
  is_Some (entries (Types v) !! name) ->
  SetType name a v = (v, Some (ErrTypeNameExists name)).
Proof.
  intros H. destruct (entries_Some _ _ H) as [g Hg].
  destruct v as [ts ps vs]; cbn in *; subst ts.
  destruct H as [x Hx]. unfold SetType, entries in *; cbn in *. rewrite Hx. reflexivity.
Qed.

Lemma SetType_fresh (v : Vocabulary) (name : string) (a : VocabularyType) :
  entries (Types v) !! name = None ->
  SetType name a v
  = (mkVocabulary (Some (<[name := a]> (entries (Types v)))) (Properties v) (Values v),
     None).
Proof.
  intros H. destruct v as [[g|] ps vs]; unfold SetType, entries in *; cbn in *; rewrite H; reflexivity.
Qed.

Lemma SetProperty_present (v : Vocabulary) (name : string) (a : VocabularyProperty) :
  is_Some (entries (Properties v) !! name) ->
  SetProperty name a v = (v, Some ErrPropertyNameExists).
Proof.
  intros H. destruct (entries_Some _ _ H) as [g Hg].
  destruct v as [ts ps vs]; cbn in *; subst ps.
  destruct H as [x Hx]. unfold SetProperty, entries in *; cbn in *. rewrite Hx. reflexivity.
Qed.

Lemma SetProperty_fresh (v : Vocabulary) (name : string) (a : VocabularyProperty) :
  entries (Properties v) !! name = None ->
  SetProperty name a v
  = (mkVocabulary (Types v) (Some (<[name := a]> (entries (Properties v)))) (Values v),
     None).
Proof.
  intros H. destruct v as [ts [g|] vs]; unfold SetProperty, entries in *; cbn in *; rewrite H; reflexivity.
Qed.

Lemma SetValue_present (v : Vocabulary) (name : string) (a : VocabularyValue) :
  is_Some (entries (Values v) !! name) ->
  SetValue name a v = (v, Some ErrValueNameExists).
Proof.
  intros H. destruct (entries_Some _ _ H) as [g Hg].
  destruct v as [ts ps vs]; cbn in *; subst vs.
  destruct H as [x Hx]. unfold SetValue, entries in *; cbn in *. rewrite Hx. reflexivity.
Qed.

Lemma SetValue_fresh (v : Vocabulary) (name : string) (a : VocabularyValue) :
  entries (Values v) !! name = None ->
  SetValue name a v
  = (mkVocabulary (Types v) (Properties v) (Some (<[name := a]> (entries (Values v)))),
     None).
Proof.
  intros H. destruct v as [ts ps [g|]]; unfold SetValue, entries in *; cbn in *; rewrite H; reflexivity.
Qed.

(** C7.  In each of the three maps of a vocabulary, inserting under a name
    that is present returns the error and leaves the vocabulary as it was;
    inserting under a fresh name returns no error and adds that entry and
    nothing else; so of two insertions under one name the second always
    fails, whichever entity comes first. *)
Theorem Set_unique_names (v : Vocabulary) (name : string) :
  (forall a : VocabularyType,
      (is_Some (entries (Types v) !! name) ->
       SetType name a v = (v, Some (ErrTypeNameExists name)))
      /\ (entries (Types v) !! name = None ->
          exists v', SetType name a v = (v', None)
                     /\ entries (Types v') = <[name := a]> (entries (Types v))
                     /\ Properties v' = Properties v /\ Values v' = Values v)
      /\ (forall b, snd (SetType name b (fst (SetType name a v)))
                    = Some (ErrTypeNameExists name)))
  /\ (forall a : VocabularyProperty,
      (is_Some (entries (Properties v) !! name) ->
       SetProperty name a v = (v, Some ErrPropertyNameExists))
      /\ (entries (Properties v) !! name = None ->
          exists v', SetProperty name a v = (v', None)
                     /\ entries (Properties v') = <[name := a]> (entries (Properties v))
                     /\ Types v' = Types v /\ Values v' = Values v)
      /\ (forall b, snd (SetProperty name b (fst (SetProperty name a v)))
                    = Some ErrPropertyNameExists))
  /\ (forall a : VocabularyValue,
      (is_Some (entries (Values v) !! name) ->
       SetValue name a v = (v, Some ErrValueNameExists))
      /\ (entries (Values v) !! name = None ->
          exists v', SetValue name a v = (v', None)
                     /\ entries (Values v') = <[name := a]> (entries (Values v))
                     /\ Types v' = Types v /\ Properties v' = Properties v)
      /\ (forall b, snd (SetValue name b (fst (SetValue name a v)))
                    = Some ErrValueNameExists)).
Proof.
  split; [|split]; intros a; (split; [|split]).
  - apply SetType_present.
  - intros H. rewrite (SetType_fresh _ _ _ H). eexists; repeat split.
  - intros b. destruct (entries (Types v) !! name) eqn:E.
    + rewrite !SetType_present by (rewrite ?SetType_present; cbn; eauto). reflexivity.
    + rewrite (SetType_fresh _ _ a E). cbn [fst].
      rewrite SetType_present; [reflexivity|].
      cbn. rewrite lookup_insert_eq. eauto.
  - apply SetProperty_present.
  - intros H. rewrite (SetProperty_fresh _ _ _ H). eexists; repeat split.
  - intros b. destruct (entries (Properties v) !! name) eqn:E.
    + rewrite !SetProperty_present by (rewrite ?SetProperty_present; cbn; eauto).
      reflexivity.
    + rewrite (SetProperty_fresh _ _ a E). cbn [fst].
      rewrite SetProperty_present; [reflexivity|].
      cbn. rewrite lookup_insert_eq. eauto.
  - apply SetValue_present.
  - intros H. rewrite (SetValue_fresh _ _ _ H). eexists; repeat split.
  - intros b. destruct (entries (Values v) !! name) eqn:E.
    + rewrite !SetValue_present by (rewrite ?SetValue_present; cbn; eauto). reflexivity.
    + rewrite (SetValue_fresh _ _ a E). cbn [fst].
      rewrite SetValue_present; [reflexivity|].
      cbn. rewrite lookup_insert_eq. eauto.
Qed.

Lemma Set_unique_names_witness :
  SetType "Note" (named_type "Other")
    (mkVocabulary (Some {["Note" := named_type "Note"]}) None None)
  = (mkVocabulary (Some {["Note" := named_type "Note"]}) None None,
     Some (ErrTypeNameExists "Note"))
  /\ snd (SetType "Note" (named_type "Note") (mkVocabulary None None None)) = None.
Proof.
  split.
  - apply (proj1 (proj1 (Set_unique_names
                           (mkVocabulary (Some {["Note" := named_type "Note"]}) None None)
                           "Note") (named_type "Other"))).
    exists (named_type "Note"). apply lookup_singleton_eq.
  - destruct (proj1 (proj2 (proj1 (Set_unique_names (mkVocabulary None None None) "Note")
                              (named_type "Note"))) (lookup_empty _))
      as (v' & Heq & _).
    rewrite Heq. reflexivity.
Defined.

(** ** Properties of the parsing state *)

(** C10.  On an empty stack [Pop] panics with an index out of range: it
    neither returns the context unchanged nor reports an error.  On a
    non-empty stack it installs the top as [Current] and removes it; so [Pop]
    after [Push] gives back the [Current] and the [Stack] from before the
    [Push].  [Name] becomes the name of the restored entity when that entity
    has [GetName], and stays what it was otherwise. *)
Theorem Pop_spec (h : list object) (p : ParsingContext) :
  (Stack p = [] -> Pop h p = Panicked (IndexOutOfRange 0 0))
  /\ (forall top rest, Stack p = top :: rest ->
      exists q, Pop h p = Returned q
                /\ Current q = top /\ Stack q = rest
                /\ Name q = match nameGetter h top with
                            | Some name => name
                            | None => Name p
                            end)
  /\ (exists q, Pop h (Push p) = Returned q
                /\ Current q = Current p /\ Stack q = Stack p
                /\ Name q = match nameGetter h (Current p) with
                            | Some name => name
                            | None => Name p
                            end
                /\ Result q = Result p
                /\ OnlyApplyThisNodeNextLevel q = OnlyApplyThisNodeNextLevel p
                /\ OnlyApplied q = OnlyApplied p
                /\ OnlyApplyThisNode q = OnlyApplyThisNode p).
Proof.
  split; [|split].
  - intros H. unfold Pop. rewrite H. reflexivity.
  - intros top rest H. unfold Pop. rewrite H. cbn.
    destruct (nameGetter h top); eexists; repeat split.
  - unfold Pop, Push. cbn.
    destruct (nameGetter h (Current p)); eexists; repeat split.
Qed.

Lemma Pop_spec_witness :
  Pop [] fresh_ctx = Panicked (IndexOutOfRange 0 0)
  /\ exists q, Pop [ObjType (named_type "Note")]
                 (set_Stack [IPtr 0] fresh_ctx) = Returned q
               /\ Current q = IPtr 0 /\ Stack q = [] /\ Name q = "Note".
Proof.
  split.
  - apply (proj1 (Pop_spec [] fresh_ctx)). reflexivity.
  - destruct (proj1 (proj2 (Pop_spec [ObjType (named_type "Note")]
                              (set_Stack [IPtr 0] fresh_ctx)))
                     (IPtr 0) [] eq_refl) as (q & Hq & Hc & Hs & Hn).
    exists q. repeat split; assumption.
Defined.

(** ** Properties of the handler search *)

Lemma firstNode_nil impl op key w :
  firstNode impl op [] key w = mkFound w (Some (no_node op key)) [].
Proof. destruct op; reflexivity. Qed.

Lemma firstNode_cons impl op node rest key w :
  firstNode impl op (node :: rest) key w
  = let '(applied, err, w') := call impl op node key w in
    if applied then mkFound w' err [mkTry node applied err]
    else match err with
         | Some _ => mkFound w' err [mkTry node applied err]
         | None => found_cons (mkTry node applied err) (firstNode impl op rest key w')
         end.
Proof. destruct op; reflexivity. Qed.

(** C6.  A search for [enter], [exit] or [apply] calls the handlers in list
    order and ends in one of three ways.  Either the handlers of a prefix
    decline, the next one reports "handled", its error (or absence of error)
    is the result, and no later handler is called; or the handlers of a
    prefix decline, the next one reports "not handled" with an error, and
    that error is the result at once; or every handler declines and the
    result is the error naming the key (and, for [apply], the value). *)
Theorem firstNode_spec impl (op : Op) (nodes : list RDFNode) (key : string) (w : World) :
  let f := firstNode impl op nodes key w in
  (exists pre n post e w1,
      nodes = pre ++ n :: post
      /\ Declined impl op key pre w w1
      /\ call impl op n key w1 = (true, e, found_world f)
      /\ found_err f = e
      /\ found_tries f = map declined_try pre ++ [mkTry n true e])
  \/ (exists pre n post e w1,
      nodes = pre ++ n :: post
      /\ Declined impl op key pre w w1
      /\ call impl op n key w1 = (false, Some e, found_world f)
      /\ found_err f = Some e
      /\ found_tries f = map declined_try pre ++ [mkTry n false (Some e)])
  \/ (Declined impl op key nodes w (found_world f)
      /\ found_err f = Some (no_node op key)
      /\ found_tries f = map declined_try nodes).
Proof.
  revert w. induction nodes as [|node rest IH]; intros w; cbn zeta.
  - right; right. rewrite firstNode_nil. cbn. repeat split. constructor.
  - rewrite firstNode_cons.
    destruct (call impl op node key w) as [[applied err] w'] eqn:Hcall.
    destruct applied.
    + left. exists [], node, rest, err, w. cbn. repeat split; [constructor|assumption].
    + destruct err as [e|].
      * right; left. exists [], node, rest, e, w. cbn.
        repeat split; [constructor|assumption].
      * specialize (IH w'). cbn zeta in IH.
        destruct IH as [(pre & n & post & e & w1 & -> & Hd & Hc & He & Ht)
                       |[(pre & n & post & e & w1 & -> & Hd & Hc & He & Ht)
                        |(Hd & He & Ht)]].
        -- left. exists (node :: pre), n, post, e, w1. cbn.
           repeat split; [econstructor; eassumption|assumption|assumption|].
           rewrite Ht. reflexivity.
        -- right; left. exists (node :: pre), n, post, e, w1. cbn.
           repeat split; [econstructor; eassumption|assumption|assumption|].
           rewrite Ht. reflexivity.
        -- right; right. cbn.
           repeat split; [econstructor; eassumption|assumption|].
           rewrite Ht. reflexivity.
Qed.

(** ** Properties of the traversal *)

Lemma and_then_err (r : Res) (k : World -> Res) e :
  res_err r = Some e -> r ;;; k = r.
Proof. unfold and_then. intros ->. reflexivity. Qed.

Lemma and_then_ok (r : Res) (k : World -> Res) :
  res_err r = None ->
  r ;;; k = mkRes (res_world (k (res_world r))) (res_err (k (res_world r)))
                 (res_log r ++ res_log (k (res_world r))).
Proof. unfold and_then. intros ->. reflexivity. Qed.

Lemma and_then_success (r : Res) (k : World -> Res) :
  res_err (r ;;; k) = None ->
  res_err r = None /\ res_err (k (res_world r)) = None.
Proof.
  unfold and_then. destruct (res_err r) eqn:E; cbn; [congruence|auto].
Qed.

Lemma if_key_lookup {A} key (found : value -> A) (absent : A) m :
  if_key key found absent m
  = match lookup_key key m with
    | Some v => found v
    | None => absent
    end.
Proof.
  induction m as [|[k v] rest IH]; cbn; [reflexivity|].
  destruct (String.eqb k key); [reflexivity|exact IH].
Qed.

(** The two functions as the source writes them. *)
Lemma apply_eq impl nodes input w :
  apply impl nodes input w
  = match OnlyApplyThisNode (ctx w) with
    | Some only =>
        let '(applied, err, w') := Apply (impl only) "" (JObject input) w in
        mkRes w' (if applied then err else Some ErrRequestedNodeFailed)
          [EvOnly only "" (JObject input) (mkTry only applied err)]
    | None =>
        match lookup_key JSON_LD_TYPE input with
        | Some v => doApply impl nodes JSON_LD_TYPE v w
        | None =>
            match lookup_key JSON_LD_TYPE_AS input with
            | Some v => doApply impl nodes JSON_LD_TYPE_AS v w
            | None => ok w
            end
        end
        ;;; range_pairs
              (fun k v w =>
                 if String.eqb k JSON_LD_CONTEXT then ok w
                 else if String.eqb k JSON_LD_TYPE then ok w
                 else if String.eqb k JSON_LD_TYPE_AS then ok w
                 else doApply impl nodes k v w)
              input
    end.
Proof.
  unfold apply, apply_with. rewrite !if_key_lookup. reflexivity.
Qed.

Lemma doApply_eq impl nodes k v w :
  doApply impl nodes k v w
  = let '(enterApplyExitNodes, clearFn, p) := GetNextNodes nodes (ctx w) in
    let w := set_ctx p w in
    keyed k v (deferred clearFn
      match v with
      | JObject mapValue =>
          entering impl enterApplyExitNodes k w
          ;;; apply impl nodes mapValue
          ;;; exiting impl enterApplyExitNodes k
      | JArray arrValue =>
          range_values
            (fun val w =>
               entering impl enterApplyExitNodes k w
               ;;; (fun w =>
                      match val with
                      | JObject mapValue => apply impl nodes mapValue w
                      | _ => applying impl enterApplyExitNodes k val w
                      end)
               ;;; exiting impl enterApplyExitNodes k)
            arrValue w
      | _ => applying impl enterApplyExitNodes k v w
      end).
Proof. destruct v; reflexivity. Qed.

Lemma doApply_log impl nodes k v w :
  exists body, res_log (doApply impl nodes k v w) = [EvKey k v body].
Proof.
  rewrite doApply_eq. destruct (GetNextNodes nodes (ctx w)) as [[ns clearFn] p].
  cbn. eauto.
Qed.

Lemma follows_ok w : follows [] (ok w).
Proof. repeat split. exists []. reflexivity. Qed.

Lemma follows_skip L w (loop : World -> Res) :
  follows L (loop w) -> follows L (ok w ;;; loop).
Proof.
  intros H. rewrite and_then_ok by reflexivity. exact H.
Qed.

Lemma follows_step L (r : Res) (loop : World -> Res) k v body :
  res_log r = [EvKey k v body] ->
  (forall w, follows L (loop w)) ->
  follows ((k, v) :: L) (r ;;; loop).
Proof.
  intros Hlog Hloop. destruct (res_err r) as [e|] eqn:Herr.
  - rewrite (and_then_err _ _ e Herr). unfold follows. rewrite Hlog, Herr.
    repeat split; [exists L; reflexivity|discriminate].
  - rewrite and_then_ok by assumption.
    destruct (Hloop (res_world r)) as (H1 & [tl H2] & H3).
    unfold follows. cbn [res_log res_err]. rewrite Hlog.
    change ([EvKey k v body] ++ res_log (loop (res_world r)))
      with (EvKey k v body :: res_log (loop (res_world r))).
    repeat split.
    + cbn [forallb is_key andb]. exact H1.
    + exists tl. cbn [keys_of flat_map app]. fold (keys_of (res_log (loop (res_world r)))).
      rewrite <- H2. reflexivity.
    + intros H. cbn [keys_of flat_map app].
      fold (keys_of (res_log (loop (res_world r)))).
      rewrite (H3 H). reflexivity.
Qed.

Lemma range_pairs_keys impl nodes m w :
  follows (List.filter ordinary m)
    (range_pairs
       (fun k v w =>
          if String.eqb k JSON_LD_CONTEXT then ok w
          else if String.eqb k JSON_LD_TYPE then ok w
          else if String.eqb k JSON_LD_TYPE_AS then ok w
          else doApply impl nodes k v w) m w).
Proof.
  revert w. induction m as [|[k v] rest IH]; intros w.
  - apply follows_ok.
  - cbn [range_pairs List.filter]. unfold ordinary at 1. cbn [fst].
    destruct (String.eqb k JSON_LD_CONTEXT); cbn [negb andb];
      [apply follows_skip, IH|].
    destruct (String.eqb k JSON_LD_TYPE); cbn [negb andb];
      [apply follows_skip, IH|].
    destruct (String.eqb k JSON_LD_TYPE_AS); cbn [negb andb];
      [apply follows_skip, IH|].
    destruct (doApply_log impl nodes k v w) as [body Hlog].
    eapply follows_step; [exact Hlog|exact IH].
Qed.

Lemma apply_follows impl nodes m w :
  OnlyApplyThisNode (ctx w) = None ->
  follows (dispatch_order m) (apply impl nodes m w).
Proof.
  intros Hnone. rewrite apply_eq, Hnone.
  change (follows (dispatch_order m)
            (match lookup_key JSON_LD_TYPE m with
             | Some v => doApply impl nodes JSON_LD_TYPE v w
             | None =>
                 match lookup_key JSON_LD_TYPE_AS m with
                 | Some v => doApply impl nodes JSON_LD_TYPE_AS v w
                 | None => ok w
                 end
             end
             ;;; range_pairs
                   (fun k v w =>
                      if String.eqb k JSON_LD_CONTEXT then ok w
                      else if String.eqb k JSON_LD_TYPE then ok w
                      else if String.eqb k JSON_LD_TYPE_AS then ok w
                      else doApply impl nodes k v w) m)).
  unfold dispatch_order, type_pair.
  destruct (lookup_key JSON_LD_TYPE m) as [v|].
  { destruct (doApply_log impl nodes JSON_LD_TYPE v w) as [body Hlog].
    eapply follows_step; [exact Hlog|]. intros w'. apply range_pairs_keys. }
  destruct (lookup_key JSON_LD_TYPE_AS m) as [v|].
  { destruct (doApply_log impl nodes JSON_LD_TYPE_AS v w) as [body Hlog].
    eapply follows_step; [exact Hlog|]. intros w'. apply range_pairs_keys. }
  apply follows_skip, range_pairs_keys.
Qed.

(** C4.  The pairs dispatched at an object level are, in this order, the
    type pair ([@type], or [type] when [@type] is absent) and then the other
    pairs of the object in the order of the loop, without [@context],
    [@type] and [type]; a level that fails has dispatched an initial segment
    of this sequence.  The type pair so precedes every other key wherever it
    stands in the object.  When the level is traversed normally its log
    holds these dispatches and nothing else, all of them if it succeeds. *)
Theorem apply_dispatch_order impl (nodes : list RDFNode) (m : list (string * value))
  (w : World) :
  let r := apply impl nodes m w in
  (exists rest, dispatch_order m = keys_of (res_log r) ++ rest)
  /\ (OnlyApplyThisNode (ctx w) = None ->
      forallb is_key (res_log r) = true
      /\ (res_err r = None -> keys_of (res_log r) = dispatch_order m)).
Proof.
  cbn zeta. destruct (OnlyApplyThisNode (ctx w)) as [only|] eqn:Honly.
  - split; [|discriminate]. rewrite apply_eq, Honly.
    destruct (Apply (impl only) "" (JObject m) w) as [[applied err] w'].
    exists (dispatch_order m). reflexivity.
  - destruct (apply_follows impl nodes m w Honly) as (H1 & H2 & H3).
    split; [exact H2|]. intros _. split; assumption.
Qed.

Lemma apply_dispatch_order_witness :
  keys_of (res_log (apply demo_impl [1]
                      [("name", JString "Note"); ("@context", JString "B");
                       ("@type", JString "Object")]
                      (mkWorld fresh_ctx [])))
  = [("@type", JString "Object"); ("name", JString "Note")].
Proof.
  pose proof (apply_dispatch_order demo_impl [1]
                [("name", JString "Note"); ("@context", JString "B");
                 ("@type", JString "Object")]
                (mkWorld fresh_ctx [])) as H.
  cbn zeta in H. destruct H as [_ H]. destruct (H eq_refl) as [_ H'].
  exact (H' eq_refl).
Defined.

(** C8 as stated fails: a handler installed with [SetOnlyApplyThisNode] that
    returns an error without reporting "handled" does not have its error
    returned; the caller gets the engine's own error instead. *)
Lemma apply_only_replaces_error :
  let w := mkWorld (SetOnlyApplyThisNode 2 fresh_ctx) [] in
  let doc := [("@type", JString "Object")] in
  Apply (demo_impl 2) "" (JObject doc) w = (false, Some (ErrExternal "boom"), w)
  /\ res_err (apply demo_impl [1] doc w) = Some ErrRequestedNodeFailed
  /\ res_err (apply demo_impl [1] doc w) <> Some (ErrExternal "boom").
Proof. cbn. repeat split. discriminate. Qed.

(** C8, amended.  When [OnlyApplyThisNode] is set at the start of an object
    level, the traversal of that level is one call of [Apply] on that handler
    with the empty key and the whole object: the log holds that call and
    nothing else (no type pre-pass, no dispatch of any pair, no recursion),
    and the level returns at once.  The error returned is the handler's
    error (or none) when the handler reports "handled", and the engine's
    "applying requested node failed" when it does not, whatever error the
    handler returned. *)
Theorem apply_only impl (nodes : list RDFNode) (input : list (string * value))
  (w : World) (only : RDFNode) :
  OnlyApplyThisNode (ctx w) = Some only ->
  exists applied err w',
    Apply (impl only) "" (JObject input) w = (applied, err, w')
    /\ res_log (apply impl nodes input w)
       = [EvOnly only "" (JObject input) (mkTry only applied err)]
    /\ res_world (apply impl nodes input w) = w'
    /\ res_err (apply impl nodes input w)
       = if applied then err else Some ErrRequestedNodeFailed.
Proof.
  intros H. rewrite apply_eq, H.
  destruct (Apply (impl only) "" (JObject input) w) as [[applied err] w'].
  exists applied, err, w'. repeat split.
Qed.

Lemma apply_only_witness :
  res_log (apply demo_impl [0]
             [("name", JObject [("deep", JArray [JNumber 1])])]
             (mkWorld (SetOnlyApplyThisNode 1 fresh_ctx) []))
  = [EvOnly 1 "" (JObject [("name", JObject [("deep", JArray [JNumber 1])])])
       (mkTry 1 true None)]
  /\ res_err (apply demo_impl [0]
                [("name", JObject [("deep", JArray [JNumber 1])])]
                (mkWorld (SetOnlyApplyThisNode 1 fresh_ctx) [])) = None.
Proof.
  destruct (apply_only demo_impl [0]
              [("name", JObject [("deep", JArray [JNumber 1])])]
              (mkWorld (SetOnlyApplyThisNode 1 fresh_ctx) []) 1 eq_refl)
    as (applied & err & w' & Hcall & Hlog & _ & Herr).
  cbn in Hcall. injection Hcall as <- <- <-.
  split; assumption.
Defined.

(** ** Properties of the entry point *)

(** C1 as stated fails: when the traversal fails, [ParseVocabulary] returns
    the error together with a non-nil vocabulary, which holds what the
    handlers stored before the failure.  Here the type [Note] has been
    inserted when the key [bogus] is found to have no handler. *)
Lemma ParseVocabulary_partial_result :
  let r := ParseVocabulary demo_impl demo_registry
             [("@context", JString "A"); ("name", JString "Note");
              ("bogus", JNumber 1)] [] in
  parse_err r = Some (ErrNoNodeApplying "bogus" (JNumber 1))
  /\ vocabulary r = Some 0
  /\ exists pv, parse_heap r !! 0 = Some (ObjParsedVocabulary pv)
                /\ entries (Types (Vocab pv)) !! "Note" = Some (named_type "Note").
Proof.
  cbn zeta. split; [reflexivity|]. split; [reflexivity|].
  eexists. split; [vm_compute; reflexivity|]. vm_compute. reflexivity.
Qed.

(** C1, amended.  A failure of context resolution returns no vocabulary
    and leaves the store as it was.  After a successful context resolution
    the function returns the pointer to the vocabulary it allocated,
    together with the error of the traversal if there is one: the
    vocabulary is then in the state in which the handlers left it. *)
Theorem ParseVocabulary_result impl (registry : RDFRegistry)
  (input : list (string * value)) (h : list object) :
  let r := ParseVocabulary impl registry input h in
  (forall nodes e,
      parseJSONLDContext registry input = (nodes, Some e) ->
      r = mkParsed None (Some e) h [])
  /\ (forall nodes,
      parseJSONLDContext registry input = (nodes, None) ->
      let t := apply impl (jsonLDNodes registry ++ nodes) input (initial_world h) in
      vocabulary r = Some (length h)
      /\ parse_err r = res_err t
      /\ parse_heap r = heap (res_world t)).
Proof.
  cbn zeta. unfold ParseVocabulary. split.
  - intros nodes e ->. reflexivity.
  - intros nodes ->. repeat split.
Qed.

Lemma ParseVocabulary_result_witness :
  ParseVocabulary demo_impl demo_registry [("name", JString "Note")] []
  = mkParsed None (Some ErrNoContext) [] []
  /\ vocabulary (ParseVocabulary demo_impl demo_registry
                   [("@context", JString "A"); ("bogus", JNumber 1)] [])
     = Some 0.
Proof.
  split.
  - apply (proj1 (ParseVocabulary_result demo_impl demo_registry
                    [("name", JString "Note")] []) []).
    reflexivity.
  - apply (proj2 (ParseVocabulary_result demo_impl demo_registry
                    [("@context", JString "A"); ("bogus", JNumber 1)] []) [3]).
    reflexivity.
Defined.

Lemma parseJSONLDContext_single registry (input : list (string * value)) (i : value) :
  lookup_key JSON_LD_CONTEXT input = Some i ->
  (forall l, i <> JArray l) ->
  (forall m, i <> JObject m) ->
  parseJSONLDContext registry input
  = getFor registry (match i with
                     | JString s => s
                     | _ => ""
                     end).
Proof.
  intros H Ha Ho. unfold parseJSONLDContext. rewrite H.
  destruct i; try reflexivity; [destruct (Ha l)|destruct (Ho m)]; reflexivity.
Qed.

(** C2: the code at a [@context] that is a number.  The error for a value
    that is not a string is never returned: the registry is asked for the
    empty name and its answer is the result.  With a registry that does not
    know the empty name the error is the registry's; with one that does, the
    parse goes on to the traversal and succeeds. *)
Theorem parseJSONLDContext_number :
  parseJSONLDContext demo_registry [("@context", JNumber 5)]
  = getFor demo_registry ""
  /\ parseJSONLDContext demo_registry [("@context", JNumber 5)]
     = ([], Some (ErrExternal "unknown ontology"))
  /\ parseJSONLDContext lenient_registry [("@context", JNumber 5)] = ([1], None)
  /\ ParseVocabulary demo_impl lenient_registry
       [("@context", JNumber 5); ("name", JString "Note")] []
     = mkParsed (Some 0) None [ObjParsedVocabulary empty_ParsedVocabulary]
         [EvKey "name" (JString "Note")
            [EvApply [0; 1] "name" (JString "Note")
               [mkTry 0 false None; mkTry 1 true None]]].
Proof.
  split; [|split; [|split]].
  - apply (parseJSONLDContext_single demo_registry _ (JNumber 5));
      [reflexivity|discriminate|discriminate].
  - reflexivity.
  - reflexivity.
  - reflexivity.
Qed.

Lemma appending_resolved r n nodes :
  resolved r = Some n -> appending r nodes = (nodes ++ n, None).
Proof.
  destruct r as [n' [e|]]; cbn; [discriminate|].
  intros [= ->]. reflexivity.
Qed.

Lemma gather_resolved {A} (f : A -> option (list RDFNode))
  (step : A -> list RDFNode -> list RDFNode * option error) :
  (forall x n nodes, f x = Some n -> step x nodes = (nodes ++ n, None)) ->
  forall l nss nodes,
    mapM f l = Some nss ->
    gather step l nodes = (nodes ++ concat nss, None).
Proof.
  intros Hstep. induction l as [|x l IH]; intros nss nodes H.
  - cbn in H. injection H as <-. cbn. rewrite app_nil_r. reflexivity.
  - cbn in H. destruct (f x) as [n|] eqn:Hx; [|discriminate].
    cbn in H. destruct (mapM f l) as [nss'|] eqn:Hl; [|discriminate].
    cbn in H. injection H as <-.
    cbn. rewrite (Hstep x n nodes Hx). rewrite (IH nss' _ eq_refl).
    rewrite <- app_assoc. reflexivity.
Qed.

(** C9.  For an array-valued [@context] whose elements all resolve, the
    handler list is the concatenation of the handlers of the elements in the
    order of the array; and whatever the shape of [@context], the traversal
    is run with the built-in handlers in front of the resolved list. *)
Theorem context_array_order (registry : RDFRegistry) (input : list (string * value)) :
  (forall l nss,
      lookup_key JSON_LD_CONTEXT input = Some (JArray l) ->
      mapM (element_nodes registry) l = Some nss ->
      parseJSONLDContext registry input = (concat nss, None))
  /\ (forall nodes impl h,
      parseJSONLDContext registry input = (nodes, None) ->
      let t := apply impl (jsonLDNodes registry ++ nodes) input (initial_world h) in
      ParseVocabulary impl registry input h
      = mkParsed (Some (length h)) (res_err t) (heap (res_world t)) (res_log t)).
Proof.
  split.
  - intros l nss Hctx Hall.
    unfold parseJSONLDContext. rewrite Hctx.
    change (concat nss) with ([] ++ concat nss).
    apply (gather_resolved (element_nodes registry)); [|exact Hall].
    intros iVal n nodes Hn. destruct iVal; cbn in Hn; try discriminate.
    + apply appending_resolved, Hn.
    + destruct (mapM (pair_nodes registry) m) as [ps|] eqn:Hm; [|discriminate].
      cbn in Hn. injection Hn as <-.
      apply (gather_resolved (pair_nodes registry)); [|exact Hm].
      intros [alias val] n' nodes' Hn'. unfold pair_nodes in Hn'. cbn in Hn'.
      destruct val; try discriminate; apply appending_resolved, Hn'.
  - intros nodes impl h Hp. cbn zeta. unfold ParseVocabulary. rewrite Hp. reflexivity.
Qed.

Lemma context_array_order_witness :
  parseJSONLDContext demo_registry
    [("@context", JArray [JString "A"; JObject [("b", JString "B")]; JString "A"])]
  = ([3; 1; 3], None).
Proof.
  apply (proj1 (context_array_order demo_registry
                  [("@context",
                    JArray [JString "A"; JObject [("b", JString "B")]; JString "A"])])
           [JString "A"; JObject [("b", JString "B")]; JString "A"]
           [[3]; [1]; [3]]); reflexivity.
Defined.

(** ** Arrays *)

Lemma apply_log_shape impl nodes m w :
  forallb (fun e => is_key e || is_only e) (res_log (apply impl nodes m w)) = true.
Proof.
  destruct (OnlyApplyThisNode (ctx w)) as [only|] eqn:Honly.
  - rewrite apply_eq, Honly.
    destruct (Apply (impl only) "" (JObject m) w) as [[applied err] w']. reflexivity.
  - destruct (apply_follows impl nodes m w Honly) as (H & _).
    rewrite forallb_forall in *. intros e He. rewrite (H e He). reflexivity.
Qed.

Lemma count_app f (a b : list Event) : count f (a ++ b) = count f a + count f b.
Proof. unfold count. rewrite List.filter_app, length_app. reflexivity. Qed.

Lemma count_none f (g : Event -> bool) (log : list Event) :
  (forall e, g e = true -> f e = false) ->
  forallb g log = true -> count f log = 0.
Proof.
  intros Hfg. induction log as [|e log IH]; cbn; [reflexivity|].
  intros H. apply andb_prop in H as [He Hl]. unfold count in *. cbn.
  rewrite (Hfg e He). exact (IH Hl).
Qed.

Lemma key_or_only_not_enter k e : is_key e || is_only e = true -> is_enter k e = false.
Proof. destruct e; cbn; intros H; solve [reflexivity | discriminate H]. Qed.

Lemma key_or_only_not_exit k e : is_key e || is_only e = true -> is_exit k e = false.
Proof. destruct e; cbn; intros H; solve [reflexivity | discriminate H]. Qed.









(** ** The next-level override *)

Lemma value_nested_ind (P : value -> Prop) :
  P JNull ->
  (forall b, P (JBool b)) ->
  (forall n, P (JNumber n)) ->
  (forall s, P (JString s)) ->
  (forall l, Forall P l -> P (JArray l)) ->
  (forall m, Forall (fun kv => P (snd kv)) m -> P (JObject m)) ->
  forall v, P v.
Proof.
  intros Hnull Hbool Hnum Hstr Harr Hobj.
  fix IH 1. intros [|b|n|s|l|m].
  - exact Hnull.
  - apply Hbool.
  - apply Hnum.
  - apply Hstr.
  - apply Harr. induction l as [|x l IHl]; constructor; [apply IH|exact IHl].
  - apply Hobj. induction m as [|[k x] m IHm]; constructor; [apply IH|exact IHm].
Qed.

Lemma lookup_key_In key m v :
  lookup_key key m = Some v -> exists k, In (k, v) m.
Proof.
  induction m as [|[k x] m IH]; cbn; [discriminate|].
  destruct (String.eqb k key).
  - intros [= ->]. eauto.
  - intros H. destruct (IH H) as [k' Hk']. eauto.
Qed.

Section Override.

Variable impl : RDFNode -> NodeImpl.
Variable nodes : list RDFNode.
Variable n : RDFNode.
Hypothesis Hquiet : quiet impl.

Lemma firstNode_override op ns key w :
  override (ctx (found_world (firstNode impl op ns key w))) = override (ctx w).
Proof.
  revert w. induction ns as [|node rest IH]; intros w.
  - rewrite firstNode_nil. reflexivity.
  - rewrite firstNode_cons. pose proof (Hquiet op node key w) as Hq.
    destruct (call impl op node key w) as [[applied err] w']. cbn [snd] in Hq.
    destruct applied; [exact Hq|]. destruct err; [exact Hq|].
    cbn [found_cons found_world]. rewrite IH. exact Hq.
Qed.

Lemma runs_ok top c w : override (ctx w) = c -> runs nodes top c (ok w).
Proof. intros H. repeat split; [exact H|constructor|constructor]. Qed.

Lemma runs_and_then top c (r : Res) (k : World -> Res) :
  runs nodes top c r ->
  (forall w, override (ctx w) = c -> runs nodes top c (k w)) ->
  runs nodes top c (r ;;; k).
Proof.
  intros (Hc & Hl & Hn) Hk. destruct (res_err r) as [e|] eqn:Herr.
  - rewrite (and_then_err _ _ e Herr). repeat split; assumption.
  - rewrite and_then_ok by assumption.
    destruct (Hk _ Hc) as (Hc' & Hl' & Hn').
    unfold runs, level_lists, nested_lists. cbn [res_world res_log].
    rewrite !flat_map_app, !Forall_app. repeat split; assumption.
Qed.

Lemma runs_entering top c k w :
  override (ctx w) = c -> runs nodes top c (entering impl top k w).
Proof.
  intros H. unfold runs, entering. cbn [res_world res_log].
  change (enterFirstNode impl top k w) with (firstNode impl OpEnter top k w).
  rewrite firstNode_override. repeat split; [exact H|repeat constructor|constructor].
Qed.

Lemma runs_exiting top c k w :
  override (ctx w) = c -> runs nodes top c (exiting impl top k w).
Proof.
  intros H. unfold runs, exiting. cbn [res_world res_log].
  change (exitFirstNode impl top k w) with (firstNode impl OpExit top k w).
  rewrite firstNode_override. repeat split; [exact H|repeat constructor|constructor].
Qed.

Lemma runs_applying top c k v w :
  override (ctx w) = c -> runs nodes top c (applying impl top k v w).
Proof.
  intros H. unfold runs, applying. cbn [res_world res_log].
  change (applyFirstNode impl top k v w) with (firstNode impl (OpApply v) top k w).
  rewrite firstNode_override.
  repeat split; [exact H|repeat constructor|constructor].
Qed.

Lemma nested_key_or_only e :
  is_key e || is_only e = true -> searched e = [] /\ nested e = searched_deep e.
Proof. destruct e; cbn; intros H; try discriminate H; split; reflexivity. Qed.

Lemma inner_runs top c r : inner nodes c r -> runs nodes top c r.
Proof.
  intros (Hc & Hs & Hd). split; [exact Hc|].
  unfold level_lists, nested_lists.
  induction (res_log r) as [|e log IH]; [split; constructor|].
  cbn in Hs. apply andb_prop in Hs as [He Hs].
  cbn [flat_map] in *. apply Forall_app in Hd as [Hd1 Hd2].
  destruct (nested_key_or_only e He) as [-> ->].
  destruct (IH Hs Hd2) as [IH1 IH2].
  split; [exact IH1|]. apply Forall_app. split; assumption.
Qed.

Lemma inner_ok c w : override (ctx w) = c -> inner nodes c (ok w).
Proof. intros H. repeat split; [exact H|constructor]. Qed.

Lemma inner_and_then c (r : Res) (k : World -> Res) :
  inner nodes c r ->
  (forall w, override (ctx w) = c -> inner nodes c (k w)) ->
  inner nodes c (r ;;; k).
Proof.
  intros (Hc & Hs & Hd) Hk. destruct (res_err r) as [e|] eqn:Herr.
  - rewrite (and_then_err _ _ e Herr). repeat split; assumption.
  - rewrite and_then_ok by assumption.
    destruct (Hk _ Hc) as (Hc' & Hs' & Hd').
    unfold inner. cbn [res_world res_log].
    rewrite forallb_app, flat_map_app, Forall_app, Hs, Hs'. repeat split; assumption.
Qed.

Lemma GetNextNodes_full c p :
  full c -> override p = c -> GetNextNodes nodes p = (nodes, fun q => q, p).
Proof.
  unfold full, override, GetNextNodes. intros Hc <-. cbn in Hc.
  destruct (OnlyApplyThisNodeNextLevel p); [|reflexivity].
  destruct Hc as [Hc| ->]; [discriminate|reflexivity].
Qed.

Lemma GetNextNodes_armed p :
  armed n p ->
  GetNextNodes nodes p
  = ([n], fun q => set_OnlyApplied false q, set_OnlyApplied true p).
Proof.
  unfold armed, override, GetNextNodes. intros [= -> ->]. reflexivity.
Qed.

Lemma set_ctx_same w : set_ctx (ctx w) w = w.
Proof. destruct w; reflexivity. Qed.

Lemma searched_deep_split e :
  Forall (eq nodes) (searched e) -> Forall (eq nodes) (nested e) ->
  Forall (eq nodes) (searched_deep e).
Proof. destruct e; cbn; intros H1 H2; assumption. Qed.

Lemma runs_deep c r :
  runs nodes nodes c r -> Forall (eq nodes) (flat_map searched_deep (res_log r)).
Proof.
  intros (_ & Hl & Hn). unfold level_lists, nested_lists in *.
  induction (res_log r) as [|e log IH]; [constructor|].
  cbn [flat_map] in *. apply Forall_app in Hl as [Hl1 Hl2].
  apply Forall_app in Hn as [Hn1 Hn2]. apply Forall_app. split.
  - apply searched_deep_split; assumption.
  - apply IH; assumption.
Qed.

(** One element of an array, and the whole array, given what the traversal
    of a nested object does. *)
Lemma runs_array top c k l :
  Forall (fun val => match val with
                     | JObject m =>
                         forall w, override (ctx w) = c -> inner nodes c (apply impl nodes m w)
                     | _ => True
                     end) l ->
  forall w,
    override (ctx w) = c ->
    runs nodes top c
      (range_values
         (fun val w =>
            entering impl top k w
            ;;; (fun w =>
                   match val with
                   | JObject mapValue => apply impl nodes mapValue w
                   | _ => applying impl top k val w
                   end)
            ;;; exiting impl top k) l w).
Proof.
  induction 1 as [|val l Hval _ IH]; intros w Hw.
  - apply runs_ok, Hw.
  - cbn [range_values]. apply runs_and_then; [|exact IH].
    apply runs_and_then; [|intros w'; apply runs_exiting].
    apply runs_and_then; [apply runs_entering, Hw|].
    intros w' Hw'.
    destruct val; try (apply runs_applying, Hw').
    apply inner_runs, Hval, Hw'.
Qed.

Lemma runs_object top c k m w :
  (forall w, override (ctx w) = c -> inner nodes c (apply impl nodes m w)) ->
  override (ctx w) = c ->
  runs nodes top c
    (entering impl top k w ;;; apply impl nodes m ;;; exiting impl top k).
Proof.
  intros Hm Hw.
  apply runs_and_then; [|intros w'; apply runs_exiting].
  apply runs_and_then; [apply runs_entering, Hw|].
  intros w' Hw'. apply inner_runs, Hm, Hw'.
Qed.

(** The body of [doApply] after [GetNextNodes]. *)
Lemma runs_body top c k v w :
  match v with
  | JObject m => forall w, override (ctx w) = c -> inner nodes c (apply impl nodes m w)
  | JArray l =>
      Forall (fun val => match val with
                         | JObject m =>
                             forall w, override (ctx w) = c ->
                                       inner nodes c (apply impl nodes m w)
                         | _ => True
                         end) l
  | _ => True
  end ->
  override (ctx w) = c ->
  runs nodes top c
    match v with
    | JObject mapValue =>
        entering impl top k w ;;; apply impl nodes mapValue ;;; exiting impl top k
    | JArray arrValue =>
        range_values
          (fun val w =>
             entering impl top k w
             ;;; (fun w =>
                    match val with
                    | JObject mapValue => apply impl nodes mapValue w
                    | _ => applying impl top k val w
                    end)
             ;;; exiting impl top k)
          arrValue w
    | _ => applying impl top k v w
    end.
Proof.
  intros Hv Hw. destruct v; try (apply runs_applying, Hw).
  - apply runs_array; assumption.
  - apply runs_object; assumption.
Qed.

Lemma inner_doApply c k v w :
  full c ->
  match v with
  | JObject m => forall w, override (ctx w) = c -> inner nodes c (apply impl nodes m w)
  | JArray l =>
      Forall (fun val => match val with
                         | JObject m =>
                             forall w, override (ctx w) = c ->
                                       inner nodes c (apply impl nodes m w)
                         | _ => True
                         end) l
  | _ => True
  end ->
  override (ctx w) = c ->
  inner nodes c (doApply impl nodes k v w).
Proof.
  intros Hc Hv Hw. rewrite doApply_eq, (GetNextNodes_full c _ Hc Hw), set_ctx_same.
  pose proof (runs_body nodes c k v w Hv Hw) as Hbody.
  pose proof (runs_deep _ _ Hbody) as Hdeep. destruct Hbody as (Ho & _ & _).
  unfold inner, keyed, deferred. cbn [res_world res_log ctx set_ctx].
  split; [exact Ho|]. split; [reflexivity|].
  cbn [flat_map searched_deep]. rewrite app_nil_r. exact Hdeep.
Qed.

Lemma inner_apply c m :
  full c ->
  Forall (fun kv => forall k w, override (ctx w) = c ->
                                inner nodes c (doApply impl nodes k (snd kv) w)) m ->
  forall w, override (ctx w) = c -> inner nodes c (apply impl nodes m w).
Proof.
  intros Hc Hm w Hw. rewrite apply_eq.
  destruct (OnlyApplyThisNode (ctx w)) as [only|].
  - pose proof (Hquiet (OpApply (JObject m)) only "" w) as Hq. cbn [call] in Hq.
    destruct (Apply (impl only) "" (JObject m) w) as [[applied err] w'].
    cbn [snd] in Hq.
    split; [cbn [res_world]; rewrite Hq; exact Hw|].
    split; [reflexivity|constructor].
  - rewrite Forall_forall in Hm. apply inner_and_then.
    + destruct (lookup_key JSON_LD_TYPE m) as [v|] eqn:Ht.
      { destruct (lookup_key_In _ _ _ Ht) as [k' Hin].
        apply list_elem_of_In in Hin. exact (Hm _ Hin _ _ Hw). }
      destruct (lookup_key JSON_LD_TYPE_AS m) as [v|] eqn:Ha.
      { destruct (lookup_key_In _ _ _ Ha) as [k' Hin].
        apply list_elem_of_In in Hin. exact (Hm _ Hin _ _ Hw). }
      apply inner_ok, Hw.
    + clear w Hw. rewrite <- Forall_forall in Hm.
      induction Hm as [|[k v] rest Hkv _ IH]; intros w Hw.
      * apply inner_ok, Hw.
      * cbn [range_pairs]. apply inner_and_then; [|exact IH].
        destruct (String.eqb k JSON_LD_CONTEXT); [apply inner_ok, Hw|].
        destruct (String.eqb k JSON_LD_TYPE); [apply inner_ok, Hw|].
        destruct (String.eqb k JSON_LD_TYPE_AS); [apply inner_ok, Hw|].
        exact (Hkv _ _ Hw).
Qed.

(** Below a level at which the full list is handed out, every search of
    every dispatch uses the full list. *)
Lemma inner_traversal c (v : value) :
  full c ->
  (forall k w, override (ctx w) = c -> inner nodes c (doApply impl nodes k v w))
  /\ match v with
     | JObject m => forall w, override (ctx w) = c -> inner nodes c (apply impl nodes m w)
     | _ => True
     end.
Proof.
  intros Hc. induction v as [|b|z|s|l IH|m IH] using value_nested_ind;
    try (split; [|exact I]; intros k w Hw; apply inner_doApply; [exact Hc|exact I|exact Hw]).
  - split; [|exact I]. intros k w Hw. apply inner_doApply; [exact Hc| |exact Hw].
    eapply Forall_impl; [exact IH|]. intros val [_ Hval]. exact Hval.
  - assert (Hm : forall w, override (ctx w) = c -> inner nodes c (apply impl nodes m w)).
    { apply inner_apply; [exact Hc|].
      eapply Forall_impl; [exact IH|]. intros kv [Hkv _]. exact Hkv. }
    split; [|exact Hm]. intros k w Hw. apply inner_doApply; assumption.
Qed.


End Override.

(** C3 as stated fails for the sibling keys.  The override handler 1 is set
    and no handler touches it afterwards; the full list is [[0]].  The
    dispatch of the key [a] uses the override, and so does the dispatch of
    its sibling [b]: when the first dispatch returns, the next
    [GetNextNodes] hands out the override handler again.  With the full list
    the key [b] would have had no handler. *)
Lemma override_used_for_sibling :
  let w := mkWorld (SetOnlyApplyThisNodeNextLevel 1 fresh_ctx) [] in
  let r := apply demo_impl [0] [("a", JNumber 1); ("b", JNumber 2)] w in
  res_log r
  = [EvKey "a" (JNumber 1) [EvApply [1] "a" (JNumber 1) [mkTry 1 true None]];
     EvKey "b" (JNumber 2) [EvApply [1] "b" (JNumber 2) [mkTry 1 true None]]]
  /\ res_err r = None
  /\ fst (fst (GetNextNodes [0]
                 (ctx (res_world (doApply demo_impl [0] "a" (JNumber 1) w))))) = [1]
  /\ res_err (applying demo_impl [0] "b" (JNumber 2) w)
     = Some (ErrNoNodeApplying "b" (JNumber 2)).
Proof. cbn. repeat split. Qed.

(** *** The engine calls handlers with the keys of the step only *)

Lemma and_then_congr (r : Res) (k k' : World -> Res) :
  (forall w, k w = k' w) -> r ;;; k = r ;;; k'.
Proof. intros H. unfold and_then. rewrite H. reflexivity. Qed.

Lemma and_then_congr2 (r r' : Res) (k k' : World -> Res) :
  r = r' -> (forall w, k w = k' w) -> r ;;; k = r' ;;; k'.
Proof. intros -> H. apply and_then_congr, H. Qed.

Lemma range_values_congr (f g : value -> World -> Res) l :
  Forall (fun val => forall w, f val w = g val w) l ->
  forall w, range_values f l w = range_values g l w.
Proof.
  induction 1 as [|val l Hval _ IH]; intros w; [reflexivity|].
  cbn [range_values]. rewrite Hval. apply and_then_congr, IH.
Qed.

Lemma range_pairs_congr (f g : string -> value -> World -> Res) m :
  Forall (fun kv => forall w, f (fst kv) (snd kv) w = g (fst kv) (snd kv) w) m ->
  forall w, range_pairs f m w = range_pairs g m w.
Proof.
  induction 1 as [|[k v] m Hkv _ IH]; intros w; [reflexivity|].
  cbn [range_pairs]. cbn [fst snd] in Hkv. rewrite Hkv. apply and_then_congr, IH.
Qed.

Lemma lookup_key_In_pair key m v : lookup_key key m = Some v -> In (key, v) m.
Proof.
  induction m as [|[k x] m IH]; cbn; [discriminate|].
  destruct (String.eqb k key) eqn:E.
  - apply String.eqb_eq in E. intros [= ->]. left. congruence.
  - intros H. right. exact (IH H).
Qed.

Lemma keys_deep_array_incl l val :
  In val l -> incl (keys_deep val) (keys_deep (JArray l)).
Proof.
  intros Hin key Hkey. cbn [keys_deep]. apply in_flat_map. eauto.
Qed.

Lemma keys_deep_object_incl m k x :
  In (k, x) m ->
  In k (keys_deep (JObject m)) /\ incl (keys_deep x) (keys_deep (JObject m)).
Proof.
  intros Hin. cbn [keys_deep]. split.
  - apply in_flat_map. exists (k, x). split; [exact Hin|left; reflexivity].
  - intros key Hkey. apply in_flat_map. exists (k, x). split; [exact Hin|right; exact Hkey].
Qed.

Section Agreement.

Variables impl impl' : RDFNode -> NodeImpl.
Variable nodes : list RDFNode.
Variable keys : list string.
Hypothesis Hagree : agree keys impl impl'.
Hypothesis Hempty : In "" keys.

Lemma firstNode_agree op ns key w :
  In key keys -> firstNode impl op ns key w = firstNode impl' op ns key w.
Proof.
  intros Hin. revert w. induction ns as [|node rest IH]; intros w.
  - rewrite !firstNode_nil. reflexivity.
  - rewrite !firstNode_cons, <- (Hagree op node key w Hin).
    destruct (call impl op node key w) as [[applied err] w'].
    destruct applied; [reflexivity|]. destruct err; [reflexivity|].
    rewrite IH. reflexivity.
Qed.

Lemma entering_agree ns k w : In k keys -> entering impl ns k w = entering impl' ns k w.
Proof.
  intros Hin. unfold entering.
  change (enterFirstNode impl ns k w) with (firstNode impl OpEnter ns k w).
  change (enterFirstNode impl' ns k w) with (firstNode impl' OpEnter ns k w).
  rewrite firstNode_agree by exact Hin. reflexivity.
Qed.

Lemma exiting_agree ns k w : In k keys -> exiting impl ns k w = exiting impl' ns k w.
Proof.
  intros Hin. unfold exiting.
  change (exitFirstNode impl ns k w) with (firstNode impl OpExit ns k w).
  change (exitFirstNode impl' ns k w) with (firstNode impl' OpExit ns k w).
  rewrite firstNode_agree by exact Hin. reflexivity.
Qed.

Lemma applying_agree ns k v w :
  In k keys -> applying impl ns k v w = applying impl' ns k v w.
Proof.
  intros Hin. unfold applying.
  change (applyFirstNode impl ns k v w) with (firstNode impl (OpApply v) ns k w).
  change (applyFirstNode impl' ns k v w) with (firstNode impl' (OpApply v) ns k w).
  rewrite firstNode_agree by exact Hin. reflexivity.
Qed.

Lemma bracket_agree ns k (mid mid' : World -> Res) w :
  In k keys ->
  (forall w, mid w = mid' w) ->
  entering impl ns k w ;;; mid ;;; exiting impl ns k
  = entering impl' ns k w ;;; mid' ;;; exiting impl' ns k.
Proof.
  intros Hin Hmid. apply and_then_congr2.
  - apply and_then_congr2; [apply entering_agree, Hin|exact Hmid].
  - intros w'. apply exiting_agree, Hin.
Qed.

Lemma doApply_agree k v w :
  In k keys ->
  match v with
  | JObject m => forall w, apply impl nodes m w = apply impl' nodes m w
  | JArray l =>
      Forall (fun val => match val with
                         | JObject m => forall w, apply impl nodes m w = apply impl' nodes m w
                         | _ => True
                         end) l
  | _ => True
  end ->
  doApply impl nodes k v w = doApply impl' nodes k v w.
Proof.
  intros Hin Hv. rewrite (doApply_eq impl), (doApply_eq impl').
  destruct (GetNextNodes nodes (ctx w)) as [[ns clearFn] p].
  cbv zeta. unfold keyed, deferred.
  destruct v.
  - rewrite (applying_agree ns k JNull _ Hin). reflexivity.
  - rewrite (applying_agree ns k (JBool b) _ Hin). reflexivity.
  - rewrite (applying_agree ns k (JNumber n) _ Hin). reflexivity.
  - rewrite (applying_agree ns k (JString s) _ Hin). reflexivity.
  - rewrite (range_values_congr _
               (fun val w =>
                  entering impl' ns k w
                  ;;; (fun w =>
                         match val with
                         | JObject mapValue => apply impl' nodes mapValue w
                         | _ => applying impl' ns k val w
                         end)
                  ;;; exiting impl' ns k) l); [reflexivity|].
    eapply Forall_impl; [exact Hv|]. intros val Hval w'.
    apply bracket_agree; [exact Hin|]. intros w2.
    destruct val; try (apply applying_agree, Hin). apply Hval.
  - rewrite (bracket_agree ns k (apply impl nodes m) (apply impl' nodes m) _ Hin Hv).
    reflexivity.
Qed.

Lemma apply_agree m :
  Forall (fun kv => forall w, doApply impl nodes (fst kv) (snd kv) w
                              = doApply impl' nodes (fst kv) (snd kv) w) m ->
  forall w, apply impl nodes m w = apply impl' nodes m w.
Proof.
  intros Hm w. rewrite !apply_eq.
  destruct (OnlyApplyThisNode (ctx w)) as [only|].
  - pose proof (Hagree (OpApply (JObject m)) only "" w Hempty) as Hc. cbn [call] in Hc.
    rewrite Hc. reflexivity.
  - assert (Hpre : match lookup_key JSON_LD_TYPE m with
                   | Some v => doApply impl nodes JSON_LD_TYPE v w
                   | None =>
                       match lookup_key JSON_LD_TYPE_AS m with
                       | Some v => doApply impl nodes JSON_LD_TYPE_AS v w
                       | None => ok w
                       end
                   end
                   = match lookup_key JSON_LD_TYPE m with
                     | Some v => doApply impl' nodes JSON_LD_TYPE v w
                     | None =>
                         match lookup_key JSON_LD_TYPE_AS m with
                         | Some v => doApply impl' nodes JSON_LD_TYPE_AS v w
                         | None => ok w
                         end
                     end).
    { rewrite Forall_forall in Hm.
      destruct (lookup_key JSON_LD_TYPE m) as [v|] eqn:Ht.
      { apply lookup_key_In_pair, list_elem_of_In in Ht. exact (Hm _ Ht w). }
      destruct (lookup_key JSON_LD_TYPE_AS m) as [v|] eqn:Ha; [|reflexivity].
      apply lookup_key_In_pair, list_elem_of_In in Ha. exact (Hm _ Ha w). }
    rewrite Hpre. apply and_then_congr. apply range_pairs_congr.
    eapply Forall_impl; [exact Hm|]. intros [k v] Hkv w'. cbn [fst snd] in *.
    destruct (String.eqb k JSON_LD_CONTEXT); [reflexivity|].
    destruct (String.eqb k JSON_LD_TYPE); [reflexivity|].
    destruct (String.eqb k JSON_LD_TYPE_AS); [reflexivity|].
    apply Hkv.
Qed.

Lemma agree_value (v : value) :
  incl (keys_deep v) keys ->
  (forall k w, In k keys -> doApply impl nodes k v w = doApply impl' nodes k v w)
  /\ match v with
     | JObject m => forall w, apply impl nodes m w = apply impl' nodes m w
     | _ => True
     end.
Proof.
  induction v as [|b|z|s|l IH|m IH] using value_nested_ind; intros Hincl;
    try (split; [|exact I]; intros k w Hk; apply doApply_agree; [exact Hk|exact I]).
  - split; [|exact I]. intros k w Hk. apply doApply_agree; [exact Hk|].
    rewrite Forall_forall in IH. apply Forall_forall. intros val Hval.
    assert (Hsub : incl (keys_deep val) keys).
    { intros key Hkey. apply Hincl.
      apply (keys_deep_array_incl l val); [apply list_elem_of_In, Hval|exact Hkey]. }
    destruct val; try exact I. exact (proj2 (IH _ Hval Hsub)).
  - assert (Hm : forall w, apply impl nodes m w = apply impl' nodes m w).
    { apply apply_agree. rewrite Forall_forall in IH. apply Forall_forall.
      intros [k x] Hkx w. cbn [fst snd].
      destruct (keys_deep_object_incl m k x) as [Hk Hx]; [apply list_elem_of_In, Hkx|].
      apply (IH _ Hkx).
      - intros key Hkey. apply Hincl, Hx, Hkey.
      - apply Hincl, Hk. }
    split; [|exact Hm]. intros k w Hk. apply doApply_agree; [exact Hk|exact Hm].
Qed.

End Agreement.

Lemma existsb_eqb_In key keys : existsb (String.eqb key) keys = true <-> In key keys.
Proof.
  rewrite existsb_exists. split.
  - intros (x & Hx & E). apply String.eqb_eq in E. subst. exact Hx.
  - intros H. exists key. split; [exact H|apply String.eqb_refl].
Qed.

Lemma call_restrict keys impl op node key w :
  call (restrict keys impl) op node key w
  = if existsb (String.eqb key) keys then call impl op node key w else (false, None, w).
Proof. destruct op; reflexivity. Qed.

Lemma restrict_agree keys impl : agree keys impl (restrict keys impl).
Proof.
  intros op node key w Hin. rewrite call_restrict.
  rewrite (proj2 (existsb_eqb_In key keys) Hin). reflexivity.
Qed.

Lemma restrict_quiet keys impl : quiet_in keys impl -> quiet (restrict keys impl).
Proof.
  intros Hq op node key w. rewrite call_restrict.
  destruct (existsb (String.eqb key) keys) eqn:E; [|reflexivity].
  apply Hq, existsb_eqb_In, E.
Qed.

Lemma doApply_restrict impl nodes k v w :
  doApply impl nodes k v w = doApply (restrict (step_keys k v) impl) nodes k v w.
Proof.
  apply (agree_value impl (restrict (step_keys k v) impl) nodes (step_keys k v)
           (restrict_agree _ _) ltac:(left; reflexivity) v).
  - intros key Hkey. right. right. exact Hkey.
  - right. left. reflexivity.
Qed.

Lemma armed_step_log impl nodes n k v w :
  quiet impl ->
  armed n (ctx w) ->
  exists body,
    res_log (doApply impl nodes k v w) = [EvKey k v body]
    /\ Forall (eq [n]) (level_lists body)
    /\ Forall (eq nodes) (nested_lists body)
    /\ armed n (ctx (res_world (doApply impl nodes k v w))).
Proof.
  intros Hquiet Harmed.
  rewrite doApply_eq, (GetNextNodes_armed nodes n _ Harmed).
  set (w1 := set_ctx (set_OnlyApplied true (ctx w)) w).
  assert (Hc : full (Some n, true)) by (right; reflexivity).
  assert (Hw1 : override (ctx w1) = (Some n, true)).
  { unfold armed, override in *. injection Harmed as H1 H2.
    subst w1. cbn. rewrite H1. reflexivity. }
  assert (Hv : match v with
               | JObject m =>
                   forall w, override (ctx w) = (Some n, true) ->
                             inner nodes (Some n, true) (apply impl nodes m w)
               | JArray l =>
                   Forall (fun val =>
                             match val with
                             | JObject m =>
                                 forall w, override (ctx w) = (Some n, true) ->
                                           inner nodes (Some n, true) (apply impl nodes m w)
                             | _ => True
                             end) l
               | _ => True
               end).
  { destruct v; try exact I.
    - apply Forall_forall. intros val _.
      exact (proj2 (inner_traversal impl nodes Hquiet (Some n, true) val Hc)).
    - exact (proj2 (inner_traversal impl nodes Hquiet (Some n, true) (JObject m) Hc)). }
  destruct (runs_body impl nodes Hquiet [n] (Some n, true) k v w1 Hv Hw1)
    as (Ho & Hl & Hn).
  eexists. split; [reflexivity|]. split; [exact Hl|]. split; [exact Hn|].
  unfold armed, override in *. cbn. injection Ho as H1 _. rewrite H1. reflexivity.
Qed.

(** C3, amended.  Setting the override arms it.  Take one dispatch step
    ([doApply] of one pair) that starts with the override armed, whoever
    armed it, and during which no handler sets or resets it: the condition
    is on the handler calls with the keys of this step only, so a handler
    may set or reset the override on other keys.  The step searches the
    override handler alone for its own enter, apply and exit, and every
    dispatch nested inside the step searches the full list; when the step
    returns the override is armed again, so the next sibling key is
    dispatched to the override handler alone as well.  After
    [ResetOnlyAppliedThisNodeNextLevel] the full list is handed out. *)
Theorem override_one_level impl (nodes : list RDFNode) (n : RDFNode) :
  (forall p, armed n (SetOnlyApplyThisNodeNextLevel n p))
  /\ (forall p, fst (fst (GetNextNodes nodes (ResetOnlyAppliedThisNodeNextLevel p))) = nodes)
  /\ (forall k v w,
      quiet_in (step_keys k v) impl ->
      armed n (ctx w) ->
      let r := doApply impl nodes k v w in
      exists body,
        res_log r = [EvKey k v body]
        /\ Forall (eq [n]) (level_lists body)
        /\ Forall (eq nodes) (nested_lists body)
        /\ armed n (ctx (res_world r))).
Proof.
  split; [reflexivity|]. split; [reflexivity|].
  intros k v w Hq Harmed. cbn zeta. rewrite doApply_restrict.
  apply armed_step_log; [apply restrict_quiet, Hq|exact Harmed].
Qed.

Lemma demo_quiet : quiet demo_impl.
Proof.
  intros op node key w.
  destruct node as [|[|[|[|node]]]]; destruct op; try reflexivity.
  cbn. destruct (String.eqb key "name"); [|reflexivity].
  destruct v; try reflexivity.
  destruct (Result (ctx w)) as [a|]; [|reflexivity].
  destruct (heap w !! a) as [[]|]; try reflexivity.
  destruct (SetType s (named_type s) (Vocab pv)). reflexivity.
Qed.

Lemma scoped_quiet_in_step :
  quiet_in (step_keys "a" (JObject [("b", JNumber 2)])) scoped_impl.
Proof.
  intros op node key w Hin.
  destruct node as [|[|[|[|[|[|node]]]]]]; try exact (demo_quiet op _ key w).
  cbn in Hin. destruct Hin as [<-|[<-|[<-|[]]]]; destruct op; reflexivity.
Qed.

(** The world in which handler 5 has just entered the key ["outer"]. *)
Lemma override_one_level_witness :
  let w := snd (Enter (scoped_impl 5) "outer" (mkWorld fresh_ctx [])) in
  armed 5 (ctx w)
  /\ exists body,
      res_log (doApply scoped_impl [0; 5] "a" (JObject [("b", JNumber 2)]) w)
      = [EvKey "a" (JObject [("b", JNumber 2)]) body]
      /\ Forall (eq [5]) (level_lists body)
      /\ Forall (eq [0; 5]) (nested_lists body)
      /\ armed 5 (ctx (res_world
                         (doApply scoped_impl [0; 5] "a" (JObject [("b", JNumber 2)]) w))).
Proof.
  cbn zeta. split; [reflexivity|].
  apply (proj2 (proj2 (override_one_level scoped_impl [0; 5] 5))
           "a" (JObject [("b", JNumber 2)])
           (snd (Enter (scoped_impl 5) "outer" (mkWorld fresh_ctx [])))
           scoped_quiet_in_step eq_refl).
Defined.

(** The handlers [scoped_impl] are not quiet: handler 5 sets the override
    itself.  In a whole traversal the pairs directly under ["outer"] are
    dispatched to handler 5 alone, and the sibling of ["outer"] to the full
    list again, after handler 5 has reset the override on leaving. *)
Lemma scoped_run :
  ~ quiet scoped_impl
  /\ res_log (apply scoped_impl [0; 5]
                [("outer", JObject [("a", JNumber 1); ("b", JNumber 2)]); ("c", JNumber 3)]
                (mkWorld fresh_ctx []))
     = [EvKey "outer" (JObject [("a", JNumber 1); ("b", JNumber 2)])
          [EvEnter [0; 5] "outer" [mkTry 0 false None; mkTry 5 true None];
           EvKey "a" (JNumber 1) [EvApply [5] "a" (JNumber 1) [mkTry 5 true None]];
           EvKey "b" (JNumber 2) [EvApply [5] "b" (JNumber 2) [mkTry 5 true None]];
           EvExit [0; 5] "outer" [mkTry 0 false None; mkTry 5 true None]];
        EvKey "c" (JNumber 3)
          [EvApply [0; 5] "c" (JNumber 3) [mkTry 0 false None; mkTry 5 true None]]].
Proof.
  split; [|reflexivity].
  intros H. specialize (H OpEnter 5 "outer" (mkWorld fresh_ctx [])). discriminate H.
Qed.

(** ** More on the vocabulary model *)

Lemma SetType_fst (v : Vocabulary) (name : string) (a : VocabularyType) :
  fst (SetType name a v)
  = mkVocabulary
      (Some (match entries (Types v) !! name with
             | Some _ => entries (Types v)
             | None => <[name := a]> (entries (Types v))
             end))
      (Properties v) (Values v).
Proof.
  destruct (entries (Types v) !! name) as [x|] eqn:E.
  - rewrite SetType_present by eauto.
    destruct (entries_Some _ _ (ex_intro _ x E)) as [g Hg].
    destruct v as [ts ps vs]; cbn in *; subst ts. reflexivity.
  - rewrite SetType_fresh by assumption. reflexivity.
Qed.

Lemma SetType_snd (v : Vocabulary) (name : string) (a : VocabularyType) :
  snd (SetType name a v)
  = match entries (Types v) !! name with
    | Some _ => Some (ErrTypeNameExists name)
    | None => None
    end.
Proof.
  destruct (entries (Types v) !! name) as [x|] eqn:E.
  - rewrite SetType_present by eauto. reflexivity.
  - rewrite SetType_fresh by assumption. reflexivity.
Qed.

Lemma SetProperty_fst (v : Vocabulary) (name : string) (a : VocabularyProperty) :
  fst (SetProperty name a v)
  = mkVocabulary (Types v)
      (Some (match entries (Properties v) !! name with
             | Some _ => entries (Properties v)
             | None => <[name := a]> (entries (Properties v))
             end))
      (Values v).
Proof.
  destruct (entries (Properties v) !! name) as [x|] eqn:E.
  - rewrite SetProperty_present by eauto.
    destruct (entries_Some _ _ (ex_intro _ x E)) as [g Hg].
    destruct v as [ts ps vs]; cbn in *; subst ps. reflexivity.
  - rewrite SetProperty_fresh by assumption. reflexivity.
Qed.

Lemma SetProperty_snd (v : Vocabulary) (name : string) (a : VocabularyProperty) :
  snd (SetProperty name a v)
  = match entries (Properties v) !! name with
    | Some _ => Some ErrPropertyNameExists
    | None => None
    end.
Proof.
  destruct (entries (Properties v) !! name) as [x|] eqn:E.
  - rewrite SetProperty_present by eauto. reflexivity.
  - rewrite SetProperty_fresh by assumption. reflexivity.
Qed.

Lemma SetValue_fst (v : Vocabulary) (name : string) (a : VocabularyValue) :
  fst (SetValue name a v)
  = mkVocabulary (Types v) (Properties v)
      (Some (match entries (Values v) !! name with
             | Some _ => entries (Values v)
             | None => <[name := a]> (entries (Values v))
             end)).
Proof.
  destruct (entries (Values v) !! name) as [x|] eqn:E.
  - rewrite SetValue_present by eauto.
    destruct (entries_Some _ _ (ex_intro _ x E)) as [g Hg].
    destruct v as [ts ps vs]; cbn in *; subst vs. reflexivity.
  - rewrite SetValue_fresh by assumption. reflexivity.
Qed.

Lemma SetValue_snd (v : Vocabulary) (name : string) (a : VocabularyValue) :
  snd (SetValue name a v)
  = match entries (Values v) !! name with
    | Some _ => Some ErrValueNameExists
    | None => None
    end.
Proof.
  destruct (entries (Values v) !! name) as [x|] eqn:E.
  - rewrite SetValue_present by eauto. reflexivity.
  - rewrite SetValue_fresh by assumption. reflexivity.
Qed.

Lemma keep_or_insert_subseteq {A} (m : gmap string A) (name : string) (a : A) :
  m ⊆ match m !! name with
      | Some _ => m
      | None => <[name := a]> m
      end.
Proof.
  destruct (m !! name) eqn:E; [reflexivity|]. apply insert_subseteq, E.
Qed.

(** X1.  An insertion never removes or changes an entry: whether it
    succeeds or fails, every name bound before is bound to the same entity
    after, in all three maps. *)
Theorem Set_keeps_entries (v : Vocabulary) (name : string) :
  (forall a : VocabularyType,
      let v' := fst (SetType name a v) in
      entries (Types v) ⊆ entries (Types v')
      /\ entries (Properties v') = entries (Properties v)
      /\ entries (Values v') = entries (Values v))
  /\ (forall a : VocabularyProperty,
      let v' := fst (SetProperty name a v) in
      entries (Properties v) ⊆ entries (Properties v')
      /\ entries (Types v') = entries (Types v)
      /\ entries (Values v') = entries (Values v))
  /\ (forall a : VocabularyValue,
      let v' := fst (SetValue name a v) in
      entries (Values v) ⊆ entries (Values v')
      /\ entries (Types v') = entries (Types v)
      /\ entries (Properties v') = entries (Properties v)).
Proof.
  split; [|split]; intros a; cbn zeta.
  - rewrite SetType_fst. cbn. repeat split. apply keep_or_insert_subseteq.
  - rewrite SetProperty_fst. cbn. repeat split. apply keep_or_insert_subseteq.
  - rewrite SetValue_fst. cbn. repeat split. apply keep_or_insert_subseteq.
Qed.

Lemma keep_or_insert_commute {A} (m : gmap string A) (n1 n2 : string) (a b : A) :
  n1 <> n2 ->
  let m1 := match m !! n1 with Some _ => m | None => <[n1 := a]> m end in
  let m2 := match m !! n2 with Some _ => m | None => <[n2 := b]> m end in
  m1 !! n2 = m !! n2
  /\ match m1 !! n2 with Some _ => m1 | None => <[n2 := b]> m1 end
     = match m2 !! n1 with Some _ => m2 | None => <[n1 := a]> m2 end.
Proof.
  intros Hne. cbn zeta.
  destruct (m !! n1) eqn:E1, (m !! n2) eqn:E2;
    rewrite ?lookup_insert_ne, ?E1, ?E2 by congruence; split; try reflexivity.
  apply insert_insert_ne. congruence.
Qed.

(** X2.  Insertions under two different names do not interfere: the second
    fails or succeeds as it would have alone, and the vocabulary is the same
    whichever comes first. *)
Theorem Set_distinct_names_commute (v : Vocabulary) (n1 n2 : string) :
  n1 <> n2 ->
  (forall a b : VocabularyType,
      snd (SetType n2 b (fst (SetType n1 a v))) = snd (SetType n2 b v)
      /\ fst (SetType n2 b (fst (SetType n1 a v)))
         = fst (SetType n1 a (fst (SetType n2 b v))))
  /\ (forall a b : VocabularyProperty,
      snd (SetProperty n2 b (fst (SetProperty n1 a v))) = snd (SetProperty n2 b v)
      /\ fst (SetProperty n2 b (fst (SetProperty n1 a v)))
         = fst (SetProperty n1 a (fst (SetProperty n2 b v))))
  /\ (forall a b : VocabularyValue,
      snd (SetValue n2 b (fst (SetValue n1 a v))) = snd (SetValue n2 b v)
      /\ fst (SetValue n2 b (fst (SetValue n1 a v)))
         = fst (SetValue n1 a (fst (SetValue n2 b v)))).
Proof.
  intros Hne. split; [|split]; intros a b.
  - destruct (keep_or_insert_commute (entries (Types v)) n1 n2 a b Hne) as [H1 H2].
    split.
    + rewrite !SetType_snd, SetType_fst. cbn [Types entries]. rewrite H1. reflexivity.
    + rewrite !(SetType_fst (fst _)), !SetType_fst. cbn [Types Properties Values entries].
      rewrite H2. reflexivity.
  - destruct (keep_or_insert_commute (entries (Properties v)) n1 n2 a b Hne) as [H1 H2].
    split.
    + rewrite !SetProperty_snd, SetProperty_fst. cbn [Properties entries].
      rewrite H1. reflexivity.
    + rewrite !(SetProperty_fst (fst _)), !SetProperty_fst.
      cbn [Types Properties Values entries]. rewrite H2. reflexivity.
  - destruct (keep_or_insert_commute (entries (Values v)) n1 n2 a b Hne) as [H1 H2].
    split.
    + rewrite !SetValue_snd, SetValue_fst. cbn [Values entries]. rewrite H1. reflexivity.
    + rewrite !(SetValue_fst (fst _)), !SetValue_fst.
      cbn [Types Properties Values entries]. rewrite H2. reflexivity.
Qed.

Lemma Set_distinct_names_commute_witness :
  snd (SetType "Note" (named_type "Note")
         (fst (SetType "Link" (named_type "Link") (mkVocabulary None None None))))
  = snd (SetType "Note" (named_type "Note") (mkVocabulary None None None))
  /\ fst (SetType "Note" (named_type "Note")
           (fst (SetType "Link" (named_type "Link") (mkVocabulary None None None))))
     = fst (SetType "Link" (named_type "Link")
              (fst (SetType "Note" (named_type "Note") (mkVocabulary None None None)))).
Proof.
  apply (proj1 (Set_distinct_names_commute (mkVocabulary None None None) "Link" "Note"
                  ltac:(discriminate))).
Defined.

(** X3.  The three maps are independent: a name taken in one map does not
    make an insertion into another fail, and insertions into different maps
    give the same vocabulary in either order. *)
Theorem Set_kinds_independent (v : Vocabulary) (n1 n2 : string)
  (a : VocabularyType) (b : VocabularyProperty) (c : VocabularyValue) :
  snd (SetProperty n2 b (fst (SetType n1 a v))) = snd (SetProperty n2 b v)
  /\ snd (SetValue n2 c (fst (SetType n1 a v))) = snd (SetValue n2 c v)
  /\ snd (SetType n1 a (fst (SetProperty n2 b v))) = snd (SetType n1 a v)
  /\ snd (SetValue n1 c (fst (SetProperty n2 b v))) = snd (SetValue n1 c v)
  /\ fst (SetProperty n2 b (fst (SetType n1 a v)))
     = fst (SetType n1 a (fst (SetProperty n2 b v)))
  /\ fst (SetValue n2 c (fst (SetType n1 a v)))
     = fst (SetType n1 a (fst (SetValue n2 c v)))
  /\ fst (SetValue n2 c (fst (SetProperty n1 b v)))
     = fst (SetProperty n1 b (fst (SetValue n2 c v))).
Proof.
  rewrite !SetProperty_snd, !SetValue_snd, !SetType_snd.
  rewrite !(SetProperty_fst (fst _)), !(SetValue_fst (fst _)), !(SetType_fst (fst _)).
  rewrite !SetType_fst, !SetProperty_fst, !SetValue_fst.
  cbn [Types Properties Values entries]. repeat split.
Qed.

(** ** The entity methods *)

(** X4.  The setters of an entity are independent of each other.  An object
    has [SetName] exactly when it has [GetName], and [SetNotes] exactly when
    it has [AddExample]; [GetName] after [SetName] returns the name set;
    [AddExample] appends to the examples; [SetURI] stores what [url.Parse]
    returned, also when it failed, and returns its error; and each setter
    leaves the fields of the other three as they were. *)
Theorem setters_independent (url_Parse : string -> option URL * option error)
  (o : object) (s : string) (e : VocabularyExample) :
  (is_Some (SetName s o) <-> is_Some (GetName o))
  /\ (is_Some (SetNotes s o) <-> is_Some (AddExample e o))
  /\ (forall o', SetName s o = Some o' ->
       GetName o' = Some s /\ URI_of o' = URI_of o
       /\ Notes_of o' = Notes_of o /\ Examples_of o' = Examples_of o)
  /\ (forall o', SetNotes s o = Some o' ->
       Notes_of o' = Some s /\ GetName o' = GetName o
       /\ URI_of o' = URI_of o /\ Examples_of o' = Examples_of o)
  /\ (forall o', AddExample e o = Some o' ->
       Examples_of o' = (fun l => l ++ [e]) <$> Examples_of o
       /\ GetName o' = GetName o /\ URI_of o' = URI_of o /\ Notes_of o' = Notes_of o)
  /\ (forall o' err, SetURI url_Parse s o = Some (o', err) ->
       URI_of o' = Some (fst (url_Parse s)) /\ err = snd (url_Parse s)
       /\ GetName o' = GetName o /\ Notes_of o' = Notes_of o
       /\ Examples_of o' = Examples_of o).
Proof.
  unfold SetURI. destruct (url_Parse s) as [u err0].
  destruct o; cbn; repeat split;
    try (intros [x Hx]; solve [discriminate Hx | eauto]);
    try (intros; simplify_eq; reflexivity).
Qed.

Lemma SetName_GetName s o o' : SetName s o = Some o' -> GetName o' = Some s.
Proof. destruct o; cbn; intros H; simplify_eq; reflexivity. Qed.

(** X5.  [Pop] reads the name from the store as it is when [Pop] runs: when
    the entity on top of the stack has been renamed since it was pushed,
    [Name] becomes the new name. *)
Theorem Pop_reads_current_name (h : list object) (p : ParsingContext) (a : addr)
  (rest : list iface) (o o' : object) (s : string) :
  Stack p = IPtr a :: rest ->
  h !! a = Some o ->
  SetName s o = Some o' ->
  exists q, Pop (<[a := o']> h) p = Returned q
            /\ Name q = s /\ Current q = IPtr a /\ Stack q = rest.
Proof.
  intros Hs Ha Hn. unfold Pop. rewrite Hs. cbn.
  rewrite list_lookup_insert_eq by (eapply lookup_lt_Some; exact Ha). cbn.
  rewrite (SetName_GetName _ _ _ Hn). eexists. repeat split.
Qed.

Lemma Pop_reads_current_name_witness :
  exists q, Pop (<[0 := ObjType (named_type "Note")]> [ObjType (named_type "Draft")])
              (set_Stack [IPtr 0] fresh_ctx) = Returned q
            /\ Name q = "Note" /\ Current q = IPtr 0 /\ Stack q = [].
Proof.
  apply (Pop_reads_current_name [ObjType (named_type "Draft")]
           (set_Stack [IPtr 0] fresh_ctx) 0 [] (ObjType (named_type "Draft"))
           (ObjType (named_type "Note")) "Note"); reflexivity.
Defined.

(** ** The scope stack *)

Lemma Pop_Push_nil h q : Current q = INil -> Pop h (Push q) = Returned q.
Proof. destruct q; cbn. intros ->. reflexivity. Qed.

(** X6.  Scopes nest: any number of [Push] followed by as many [Pop], with
    nothing in between, ends as one [Push] followed by one [Pop] does, with
    [Current] and [Stack] restored. *)
Theorem pops_pushes (h : list object) (n : nat) (p : ParsingContext) :
  pops h (S n) (pushes (S n) p) = Pop h (Push p).
Proof.
  induction n as [|n IH].
  - cbn [pops pushes]. destruct (Pop h (Push p)); reflexivity.
  - change (pushes (S (S n)) p) with (Push (pushes (S n) p)).
    change (pops h (S (S n)) (Push (pushes (S n) p)))
      with (match Pop h (Push (pushes (S n) p)) with
            | Returned q => pops h (S n) q
            | Panicked e => Panicked e
            end).
    rewrite Pop_Push_nil by reflexivity. exact IH.
Qed.

Lemma Pop_cons h p top rest :
  Stack p = top :: rest ->
  exists q, Pop h p = Returned q /\ Stack q = rest /\ Current q = top
            /\ Result q = Result p
            /\ OnlyApplyThisNode q = OnlyApplyThisNode p
            /\ override q = override p.
Proof.
  intros H. unfold Pop. rewrite H. cbn.
  destruct (nameGetter h top); eexists; repeat split.
Qed.

(** X7.  [n] calls of [Pop] return exactly when the stack holds at least
    [n] entries: they then remove the first [n] entries and leave [Result]
    and the two overrides alone; with fewer entries the call that finds the
    stack empty panics. *)
Theorem pops_depth (h : list object) (n : nat) (p : ParsingContext) :
  (n <= length (Stack p) ->
   exists q, pops h n p = Returned q
             /\ Stack q = drop n (Stack p)
             /\ Result q = Result p
             /\ OnlyApplyThisNode q = OnlyApplyThisNode p
             /\ override q = override p)
  /\ (length (Stack p) < n -> pops h n p = Panicked (IndexOutOfRange 0 0)).
Proof.
  revert p. induction n as [|n IH]; intros p.
  - split; [|lia]. intros _. exists p. repeat split.
  - cbn [pops]. destruct (Stack p) as [|top rest] eqn:Hs.
    + split; [cbn; lia|]. intros _. unfold Pop. rewrite Hs. reflexivity.
    + destruct (Pop_cons h p top rest Hs) as (q & -> & Hq & _ & Hr & Ho & Hv).
      destruct (IH q) as [IH1 IH2]. rewrite Hq in IH1, IH2. cbn [length drop]. split.
      * intros Hn. destruct IH1 as (q' & -> & H1 & H2 & H3 & H4); [lia|].
        exists q'. repeat split; congruence.
      * intros Hn. apply IH2. lia.
Qed.

Lemma pops_depth_witness :
  (exists q, pops [] 2 (set_Stack [INil; INil; INil] fresh_ctx) = Returned q
             /\ Stack q = [INil])
  /\ pops [] 2 (set_Stack [INil] fresh_ctx) = Panicked (IndexOutOfRange 0 0).
Proof.
  split.
  - destruct (proj1 (pops_depth [] 2 (set_Stack [INil; INil; INil] fresh_ctx)))
      as (q & Hq & Hs & _); [cbn; lia|].
    exists q. split; assumption.
  - apply (proj2 (pops_depth [] 2 (set_Stack [INil] fresh_ctx))). cbn. lia.
Defined.

(** X8.  [Reset] establishes [IsReset] and touches nothing but [Current]
    and [Name]; [IsReset] holds exactly when both are empty.  [Push] empties
    [Current] only, so right after a [Push] the context counts as reset
    exactly when the cached name was empty. *)
Theorem Reset_IsReset (p : ParsingContext) :
  IsReset (Reset p) = true
  /\ (IsReset p = true <-> Current p = INil /\ Name p = "")
  /\ (IsReset p = true -> Reset p = p)
  /\ IsReset (Push p) = String.eqb (Name p) ""
  /\ Stack (Reset p) = Stack p
  /\ Result (Reset p) = Result p
  /\ OnlyApplyThisNode (Reset p) = OnlyApplyThisNode p
  /\ override (Reset p) = override p.
Proof.
  assert (Hiff : IsReset p = true <-> Current p = INil /\ Name p = "").
  { unfold IsReset. destruct (Current p); rewrite ?String.eqb_eq; intuition congruence. }
  repeat split; try apply Hiff; try assumption.
  intros H. apply Hiff in H as [Hc Hn]. destruct p; cbn in *. subst. reflexivity.
Qed.

(** ** Handing out the handlers *)

(** X9.  The closure that [GetNextNodes] returns undoes what [GetNextNodes]
    did to the context; until it runs, a further [GetNextNodes] hands out
    the full list.  What is handed out is the full list, or the override
    handler alone when the override is set and has not been handed out. *)
Theorem GetNextNodes_clear (nodes : list RDFNode) (p : ParsingContext) :
  let r := GetNextNodes nodes p in
  snd (fst r) (snd r) = p
  /\ fst (fst (GetNextNodes nodes (snd r))) = nodes
  /\ (fst (fst r) = nodes
      \/ exists n, fst (fst r) = [n] /\ override p = (Some n, false)).
Proof.
  cbn zeta. unfold GetNextNodes, override.
  destruct p as [res cur name stack [only|] [|] whole]; cbn; repeat split; eauto.
Qed.

(** ** Searching a concatenated list *)

Lemma settled_found_cons t f : settled (found_cons t f) = decided t || settled f.
Proof. reflexivity. Qed.

(** X10.  A search over [a ++ b] is the search over [a] when a handler of
    [a] handles the key or fails; otherwise it goes on with [b] from the
    state in which the handlers of [a] left the world, and the calls of both
    parts are made in order.  So a handler put in front of a list is never
    shadowed by one of the list. *)
Theorem firstNode_app impl (op : Op) (a b : list RDFNode) (key : string) (w : World) :
  let fa := firstNode impl op a key w in
  let fb := firstNode impl op b key (found_world fa) in
  firstNode impl op (a ++ b) key w
  = if settled fa then fa
    else mkFound (found_world fb) (found_err fb) (found_tries fa ++ found_tries fb).
Proof.
  revert w. induction a as [|node a IH]; intros w; cbn zeta.
  - rewrite firstNode_nil. cbn. destruct (firstNode impl op b key w). reflexivity.
  - change ((node :: a) ++ b) with (node :: a ++ b). rewrite !firstNode_cons.
    destruct (call impl op node key w) as [[applied err] w'].
    destruct applied; [reflexivity|]. destruct err as [e|]; [reflexivity|].
    rewrite settled_found_cons. cbn [decided try_applied try_err orb].
    rewrite IH. cbn zeta.
    destruct (settled (firstNode impl op a key w')); reflexivity.
Qed.

(** ** More on context resolution *)

(** X11.  Without an [@context] key the parse does not start: the error is
    "no @context in input", no vocabulary is returned or allocated, and no
    handler is called, whatever the registry and the rest of the document. *)
Theorem missing_context impl (registry : RDFRegistry) (input : list (string * value))
  (h : list object) :
  lookup_key JSON_LD_CONTEXT input = None ->
  parseJSONLDContext registry input = ([], Some ErrNoContext)
  /\ ParseVocabulary impl registry input h = mkParsed None (Some ErrNoContext) h [].
Proof.
  intros H. unfold ParseVocabulary, parseJSONLDContext. rewrite H. split; reflexivity.
Qed.

Lemma missing_context_witness :
  ParseVocabulary demo_impl demo_registry
    [("@type", JString "Object"); ("name", JString "Note")] []
  = mkParsed None (Some ErrNoContext) [] [].
Proof.
  apply (missing_context demo_impl demo_registry
           [("@type", JString "Object"); ("name", JString "Note")] []).
  reflexivity.
Defined.

Lemma appending_failed r e nodes :
  snd r = Some e -> appending r nodes = (nodes, Some e).
Proof. destruct r as [n err]; cbn. intros ->. reflexivity. Qed.

Lemma gather_stop {A} (f : A -> option (list RDFNode))
  (step : A -> list RDFNode -> list RDFNode * option error) :
  (forall x n nodes, f x = Some n -> step x nodes = (nodes ++ n, None)) ->
  forall pre nss x post nodes res e,
    mapM f pre = Some nss ->
    step x (nodes ++ concat nss) = (res, Some e) ->
    gather step (pre ++ x :: post) nodes = (res, Some e).
Proof.
  intros Hstep. induction pre as [|y pre IH]; intros nss x post nodes res e H Hx.
  - cbn in H. injection H as <-. cbn in *. rewrite app_nil_r in Hx. rewrite Hx. reflexivity.
  - cbn in H. destruct (f y) as [n|] eqn:Hy; [|discriminate].
    cbn in H. destruct (mapM f pre) as [nss'|] eqn:Hl; [|discriminate].
    cbn in H. injection H as <-.
    cbn. rewrite (Hstep y n nodes Hy).
    apply (IH nss'); [reflexivity|]. cbn in Hx. rewrite app_assoc in Hx. exact Hx.
Qed.

Lemma pair_step_resolved registry malformed alias val n nodes :
  pair_nodes registry (alias, val) = Some n ->
  match val with
  | JString s => appending (getAliased registry alias s) nodes
  | JObject aliasedMap => appending (getAliasedObject registry alias aliasedMap) nodes
  | _ => (nodes, Some malformed)
  end = (nodes ++ n, None).
Proof.
  unfold pair_nodes. cbn.
  destruct val; try discriminate; apply appending_resolved.
Qed.

Lemma pair_step_failed registry malformed alias val e nodes :
  pair_failure registry malformed (alias, val) = Some e ->
  match val with
  | JString s => appending (getAliased registry alias s) nodes
  | JObject aliasedMap => appending (getAliasedObject registry alias aliasedMap) nodes
  | _ => (nodes, Some malformed)
  end = (nodes, Some e).
Proof.
  unfold pair_failure. cbn.
  destruct val; try (intros [= ->]; reflexivity); apply appending_failed.
Qed.

(** X12.  For a mapping-valued [@context] the handler list is the
    concatenation of the handlers of its alias/value pairs in the order of
    the loop.  Resolution stops at the first pair that fails: the error is
    the registry's error for that pair, or "neither a dict nor a string" for
    a value that is neither, and the pairs after it are not looked at. *)
Theorem context_mapping (registry : RDFRegistry) (input : list (string * value))
  (mp : list (string * value)) :
  lookup_key JSON_LD_CONTEXT input = Some (JObject mp) ->
  (forall nss,
      mapM (pair_nodes registry) mp = Some nss ->
      parseJSONLDContext registry input = (concat nss, None))
  /\ (forall pre kv post nss e,
      mp = pre ++ kv :: post ->
      mapM (pair_nodes registry) pre = Some nss ->
      pair_failure registry ErrContextInDict kv = Some e ->
      parseJSONLDContext registry input = (concat nss, Some e)).
Proof.
  intros Hctx. unfold parseJSONLDContext. rewrite Hctx. split.
  - intros nss H. change (concat nss) with ([] ++ concat nss).
    apply (gather_resolved (pair_nodes registry)); [|exact H].
    intros [alias val] n nodes. apply pair_step_resolved.
  - intros pre kv post nss e -> H He.
    eapply (gather_stop (pair_nodes registry)); [|exact H|].
    + intros [alias val] n nodes. apply pair_step_resolved.
    + destruct kv as [alias val]. apply pair_step_failed, He.
Qed.

Lemma context_mapping_witness :
  parseJSONLDContext demo_registry
    [("@context", JObject [("a", JString "A"); ("b", JString "B")])] = ([3; 1], None)
  /\ parseJSONLDContext demo_registry
       [("@context", JObject [("a", JString "A"); ("n", JNumber 1); ("b", JString "B")])]
     = ([3], Some ErrContextInDict).
Proof.
  split.
  - apply (proj1 (context_mapping demo_registry
                    [("@context", JObject [("a", JString "A"); ("b", JString "B")])]
                    [("a", JString "A"); ("b", JString "B")] eq_refl) [[3]; [1]]).
    reflexivity.
  - apply (proj2 (context_mapping demo_registry
                    [("@context",
                      JObject [("a", JString "A"); ("n", JNumber 1); ("b", JString "B")])]
                    [("a", JString "A"); ("n", JNumber 1); ("b", JString "B")] eq_refl)
             [("a", JString "A")] ("n", JNumber 1) [("b", JString "B")] [[3]]);
      reflexivity.
Defined.

Lemma element_step_resolved registry iVal n nodes :
  element_nodes registry iVal = Some n ->
  match iVal with
  | JObject valMap =>
      gather
        (fun '(alias, val) nodes =>
           match val with
           | JString s => appending (getAliased registry alias s) nodes
           | JObject aliasedMap =>
               appending (getAliasedObject registry alias aliasedMap) nodes
           | _ => (nodes, Some ErrContextInDictInArray)
           end)
        valMap nodes
  | JString s => appending (getFor registry s) nodes
  | _ => (nodes, Some ErrContextInArray)
  end = (nodes ++ n, None).
Proof.
  intros Hn. destruct iVal; cbn in Hn; try discriminate.
  - apply appending_resolved, Hn.
  - destruct (mapM (pair_nodes registry) m) as [ps|] eqn:Hm; [|discriminate].
    cbn in Hn. injection Hn as <-.
    apply (gather_resolved (pair_nodes registry)); [|exact Hm].
    intros [alias val] n' nodes'. apply pair_step_resolved.
Qed.

(** X13.  Resolution of an array-valued [@context] stops at the first
    element that fails, and the elements after it are not looked at.  The
    error is the registry's for a name it does not know, "neither a dict nor
    a string" for an element that is neither, and for a mapping element the
    error of its first failing pair. *)
Theorem context_array_stops (registry : RDFRegistry) (input : list (string * value))
  (pre post : list value) (bad : value) (nss : list (list RDFNode)) :
  lookup_key JSON_LD_CONTEXT input = Some (JArray (pre ++ bad :: post)) ->
  mapM (element_nodes registry) pre = Some nss ->
  (forall s e,
      bad = JString s -> snd (getFor registry s) = Some e ->
      parseJSONLDContext registry input = (concat nss, Some e))
  /\ ((forall s, bad <> JString s) -> (forall m, bad <> JObject m) ->
      parseJSONLDContext registry input = (concat nss, Some ErrContextInArray))
  /\ (forall pre' kv post' nss' e,
      bad = JObject (pre' ++ kv :: post') ->
      mapM (pair_nodes registry) pre' = Some nss' ->
      pair_failure registry ErrContextInDictInArray kv = Some e ->
      parseJSONLDContext registry input = (concat nss ++ concat nss', Some e)).
Proof.
  intros Hctx Hpre. unfold parseJSONLDContext. rewrite Hctx.
  split; [|split].
  - intros s e -> He.
    eapply (gather_stop (element_nodes registry)); [|exact Hpre|].
    + intros x n nodes. apply element_step_resolved.
    + apply appending_failed, He.
  - intros Hs Ho.
    eapply (gather_stop (element_nodes registry)); [|exact Hpre|].
    + intros x n nodes. apply element_step_resolved.
    + destruct bad; try reflexivity; [destruct (Hs s)|destruct (Ho m)]; reflexivity.
  - intros pre' kv post' nss' e -> Hpre' He.
    eapply (gather_stop (element_nodes registry)); [|exact Hpre|].
    + intros x n nodes. apply element_step_resolved.
    + eapply (gather_stop (pair_nodes registry)); [|exact Hpre'|].
      * intros [alias val] n nodes. apply pair_step_resolved.
      * destruct kv as [alias val]. apply pair_step_failed, He.
Qed.

Lemma context_array_stops_witness :
  parseJSONLDContext demo_registry
    [("@context", JArray [JString "A"; JString "Z"; JString "B"])]
  = ([3], Some (ErrExternal "unknown ontology"))
  /\ parseJSONLDContext demo_registry
       [("@context", JArray [JString "A"; JBool true; JString "B"])]
     = ([3], Some ErrContextInArray).
Proof.
  split.
  - apply (proj1 (context_array_stops demo_registry
                    [("@context", JArray [JString "A"; JString "Z"; JString "B"])]
                    [JString "A"] [JString "B"] (JString "Z") [[3]] eq_refl eq_refl)
             "Z" (ErrExternal "unknown ontology")); reflexivity.
  - apply (proj1 (proj2 (context_array_stops demo_registry
                           [("@context", JArray [JString "A"; JBool true; JString "B"])]
                           [JString "A"] [JString "B"] (JBool true) [[3]]
                           eq_refl eq_refl))); discriminate.
Defined.

(** ** Edge cases of the traversal *)

Lemma and_then_ok_ok w (k : World -> Res) : k w = ok w -> ok w ;;; k = ok w.
Proof. intros H. rewrite and_then_ok by reflexivity. cbn. rewrite H. reflexivity. Qed.

Lemma range_pairs_nothing (body : string -> value -> World -> Res) m w :
  List.filter ordinary m = [] ->
  range_pairs
    (fun k v w =>
       if String.eqb k JSON_LD_CONTEXT then ok w
       else if String.eqb k JSON_LD_TYPE then ok w
       else if String.eqb k JSON_LD_TYPE_AS then ok w
       else body k v w) m w = ok w.
Proof.
  induction m as [|[k v] m IH]; [reflexivity|].
  cbn [List.filter range_pairs]. unfold ordinary at 1. cbn [fst].
  destruct (String.eqb k JSON_LD_CONTEXT); cbn [negb andb];
    [intros H; apply and_then_ok_ok, IH, H|].
  destruct (String.eqb k JSON_LD_TYPE); cbn [negb andb];
    [intros H; apply and_then_ok_ok, IH, H|].
  destruct (String.eqb k JSON_LD_TYPE_AS); cbn [negb andb];
    [intros H; apply and_then_ok_ok, IH, H|].
  discriminate.
Qed.

(** X14.  An object with nothing to dispatch (it is empty, or holds only
    [@context]) is traversed without calling any handler and without
    changing the state.  A document of that kind whose context resolves
    parses to the empty vocabulary, whatever the handlers are. *)
Theorem nothing_to_dispatch impl (nodes : list RDFNode) (m : list (string * value)) :
  dispatch_order m = [] ->
  (forall w, OnlyApplyThisNode (ctx w) = None -> apply impl nodes m w = ok w)
  /\ (forall registry ns h,
      parseJSONLDContext registry m = (ns, None) ->
      ParseVocabulary impl registry m h
      = mkParsed (Some (length h)) None
          (h ++ [ObjParsedVocabulary empty_ParsedVocabulary]) []).
Proof.
  intros H. unfold dispatch_order in H. apply app_eq_nil in H as [Ht Hf].
  assert (Happly : forall nodes' w, OnlyApplyThisNode (ctx w) = None ->
                                    apply impl nodes' m w = ok w).
  { intros nodes' w Hw. rewrite apply_eq, Hw. unfold type_pair in Ht.
    destruct (lookup_key JSON_LD_TYPE m); [discriminate|].
    destruct (lookup_key JSON_LD_TYPE_AS m); [discriminate|].
    apply and_then_ok_ok, range_pairs_nothing, Hf. }
  split; [apply Happly|].
  intros registry ns h Hp. unfold ParseVocabulary. rewrite Hp.
  rewrite Happly by reflexivity. reflexivity.
Qed.

Lemma nothing_to_dispatch_witness :
  ParseVocabulary demo_impl demo_registry [("@context", JString "A")] []
  = mkParsed (Some 0) None [ObjParsedVocabulary empty_ParsedVocabulary] [].
Proof.
  apply (proj2 (nothing_to_dispatch demo_impl [] [("@context", JString "A")] eq_refl)
           demo_registry [3] []).
  reflexivity.
Defined.

Lemma GetNextNodes_undo nodes p :
  snd (fst (GetNextNodes nodes p)) (snd (GetNextNodes nodes p)) = p.
Proof.
  unfold GetNextNodes.
  destruct p as [res cur name stack [only|] [|] whole]; reflexivity.
Qed.

(** X15.  A key whose value is the empty array is accepted without calling
    any handler: the dispatch succeeds and leaves the state as it was, also
    when no handler knows the key. *)
Theorem empty_array_accepted impl (nodes : list RDFNode) (k : string) (w : World) :
  doApply impl nodes k (JArray []) w = mkRes w None [EvKey k (JArray []) []].
Proof.
  rewrite doApply_eq. pose proof (GetNextNodes_undo nodes (ctx w)) as H.
  destruct (GetNextNodes nodes (ctx w)) as [[ns clearFn] p]. cbn in *.
  unfold keyed, deferred, set_ctx. cbn. rewrite H. destruct w; reflexivity.
Qed.

Lemma bracket_counts_ok impl ns k (mid : World -> Res) w :
  (forall w', count (is_exit k) (res_log (mid w')) = 0) ->
  let r := entering impl ns k w ;;; mid ;;; exiting impl ns k in
  res_err r = None -> count (is_exit k) (res_log r) = 1.
Proof.
  intros Hmid. cbn zeta. intros H.
  assert (Hk : String.eqb k k = true) by apply String.eqb_refl.
  pose proof H as H'. apply and_then_success in H' as [H1 _].
  pose proof H1 as H1'. apply and_then_success in H1' as [He Hm].
  rewrite (and_then_ok _ _ H1), (and_then_ok _ _ He).
  cbn [res_log res_world]. rewrite !count_app, Hmid.
  unfold count. cbn. rewrite Hk. reflexivity.
Qed.

(** X16.  The dispatch of a key whose value is an object calls enter once
    for the key and exit at most once, and exit is called when the dispatch
    succeeds.  When the enter fails, nothing else is done: the object is not
    traversed and exit is not called.  When the enter succeeds and the
    traversal of the object fails, the dispatch returns without calling
    exit.  Only when both succeed is exit called, and its result is the
    result of the dispatch.  So a handler cannot rely on exit to undo what
    it did on enter. *)
Theorem object_bracketing impl (nodes : list RDFNode) (k : string)
  (m : list (string * value)) (w : World) :
  let ns := fst (fst (GetNextNodes nodes (ctx w))) in
  let w1 := set_ctx (snd (GetNextNodes nodes (ctx w))) w in
  let e := entering impl ns k w1 in
  let a := apply impl nodes m (res_world e) in
  let x := exiting impl ns k (res_world a) in
  let r := doApply impl nodes k (JObject m) w in
  exists body,
    res_log r = [EvKey k (JObject m) body]
    /\ count (is_enter k) body = 1
    /\ count (is_exit k) body <= 1
    /\ (res_err r = None -> count (is_exit k) body = 1)
    /\ (count (is_exit k) body = 0 -> res_err r <> None)
    /\ (res_err e <> None ->
        body = res_log e /\ count (is_exit k) body = 0 /\ res_err r = res_err e)
    /\ (res_err e = None -> res_err a <> None ->
        body = res_log e ++ res_log a
        /\ count (is_exit k) body = 0 /\ res_err r = res_err a)
    /\ (res_err e = None -> res_err a = None ->
        body = res_log e ++ res_log a ++ res_log x
        /\ count (is_exit k) body = 1 /\ res_err r = res_err x).
Proof.
  cbn zeta. rewrite doApply_eq.
  destruct (GetNextNodes nodes (ctx w)) as [[ns clearFn] p].
  cbn [fst snd keyed deferred res_err res_log].
  assert (Hk : String.eqb k k = true) by apply String.eqb_refl.
  assert (Hmid : forall w', count (is_enter k) (res_log (apply impl nodes m w')) = 0
                            /\ count (is_exit k) (res_log (apply impl nodes m w')) = 0).
  { intros w'.
    split; [apply (count_none _ _ _ (key_or_only_not_enter k))
           |apply (count_none _ _ _ (key_or_only_not_exit k))];
      apply apply_log_shape. }
  assert (He : count (is_enter k) (res_log (entering impl ns k (set_ctx p w))) = 1
               /\ count (is_exit k) (res_log (entering impl ns k (set_ctx p w))) = 0).
  { unfold count. cbn. rewrite Hk. split; reflexivity. }
  assert (Hx : forall w', count (is_enter k) (res_log (exiting impl ns k w')) = 0
                          /\ count (is_exit k) (res_log (exiting impl ns k w')) = 1).
  { intros w'. unfold count. cbn. rewrite Hk. split; reflexivity. }
  revert He Hx. generalize (entering impl ns k (set_ctx p w)) (exiting impl ns k).
  intros e x [He1 He2] Hx.
  eexists. split; [reflexivity|].
  destruct (res_err e) as [err|] eqn:E1.
  - rewrite (and_then_err e _ err E1), (and_then_err e _ err E1), E1.
    repeat split; intros; try congruence; lia.
  - rewrite (and_then_ok e _ E1).
    destruct (Hmid (res_world e)) as [Hm1 Hm2].
    destruct (res_err (apply impl nodes m (res_world e))) as [err|] eqn:E2.
    + rewrite (and_then_err _ _ err) by reflexivity.
      cbn [res_log res_err]. rewrite !count_app.
      repeat split; intros; try congruence; lia.
    + rewrite and_then_ok by reflexivity.
      cbn [res_log res_world res_err]. rewrite !count_app.
      destruct (Hx (res_world (apply impl nodes m (res_world e)))) as [Hx1 Hx2].
      repeat split; intros; try congruence; try lia.
      rewrite app_assoc. reflexivity.
Qed.

Lemma lookup_key_In_key key m v : lookup_key key m = Some v -> In (key, v) m.
Proof.
  induction m as [|[k x] m IH]; cbn; [discriminate|].
  destruct (String.eqb k key) eqn:E.
  - apply String.eqb_eq in E. intros [= ->]. left. congruence.
  - intros H. right. exact (IH H).
Qed.

(** X17.  Every pair that [apply] dispatches is a pair of the object; the
    key [@context] is never dispatched, at whatever level it occurs, and the
    key [type] is dispatched only in an object without [@type]. *)
Theorem dispatched_pairs impl (nodes : list RDFNode) (m : list (string * value))
  (w : World) (kv : string * value) :
  In kv (keys_of (res_log (apply impl nodes m w))) ->
  In kv m
  /\ fst kv <> JSON_LD_CONTEXT
  /\ (fst kv = JSON_LD_TYPE_AS -> lookup_key JSON_LD_TYPE m = None).
Proof.
  intros Hin.
  assert (Hd : In kv (dispatch_order m)).
  { destruct (OnlyApplyThisNode (ctx w)) as [only|] eqn:Honly.
    - rewrite apply_eq, Honly in Hin.
      destruct (Apply (impl only) "" (JObject m) w) as [[applied err] w'].
      destruct Hin.
    - destruct (apply_follows impl nodes m w Honly) as (_ & [rest ->] & _).
      apply in_or_app. left. exact Hin. }
  unfold dispatch_order in Hd. apply in_app_or in Hd as [Ht|Ho].
  - unfold type_pair in Ht.
    destruct (lookup_key JSON_LD_TYPE m) as [v|] eqn:E1.
    + destruct Ht as [<-|[]]. split; [apply lookup_key_In_key, E1|].
      split; [discriminate|discriminate].
    + destruct (lookup_key JSON_LD_TYPE_AS m) as [v|] eqn:E2; [|destruct Ht].
      destruct Ht as [<-|[]]. split; [apply lookup_key_In_key, E2|].
      split; [discriminate|reflexivity].
  - apply List.filter_In in Ho as [Hm Hord]. split; [exact Hm|].
    unfold ordinary in Hord. apply andb_prop in Hord as [Hord Has].
    apply andb_prop in Hord as [Hc Ht].
    split.
    + intros E. rewrite E in Hc. discriminate.
    + intros E. rewrite E in Has. discriminate.
Qed.

Lemma dispatched_pairs_witness :
  In ("name", JString "Note")
    [("@context", JString "B"); ("type", JString "T"); ("name", JString "Note")]
  /\ "name" <> JSON_LD_CONTEXT.
Proof.
  destruct (dispatched_pairs demo_impl [1]
              [("@context", JString "B"); ("type", JString "T"); ("name", JString "Note")]
              (mkWorld fresh_ctx []) ("name", JString "Note")) as (H1 & H2 & _).
  - cbn. right. left. reflexivity.
  - split; assumption.
Defined.

(** ** Induction over a traversal *)

Section Traversal.

Variable impl : RDFNode -> NodeImpl.
Variable nodes : list RDFNode.

(** [Inv] is a property of the state that every step keeps; [P] is what is
    to be shown of every run that starts in a state with [Inv]. *)
Variable Inv : World -> Prop.
Variable P : Res -> Prop.

Hypothesis P_ok : forall w, Inv w -> P (ok w).
Hypothesis P_then :
  forall r k, P r -> (forall w, Inv w -> P (k w)) -> P (r ;;; k).
Hypothesis P_entering : forall ns k w, Inv w -> P (entering impl ns k w).
Hypothesis P_exiting : forall ns k w, Inv w -> P (exiting impl ns k w).
Hypothesis P_applying : forall ns k v w, Inv w -> P (applying impl ns k v w).
Hypothesis P_only :
  forall only m w,
    Inv w ->
    P (let '(applied, err, w') := Apply (impl only) "" (JObject m) w in
       mkRes w' (if applied then err else Some ErrRequestedNodeFailed)
         [EvOnly only "" (JObject m) (mkTry only applied err)]).
Hypothesis Inv_handed : forall b w, Inv w -> Inv (set_ctx (set_OnlyApplied b (ctx w)) w).
Hypothesis P_keyed :
  forall k v b r, P r -> P (keyed k v (deferred (set_OnlyApplied b) r)).
Hypothesis P_keyed_id :
  forall k v r, P r -> P (keyed k v (deferred (fun q => q) r)).

Lemma traversal_array ns k l :
  Forall (fun val => match val with
                     | JObject m => forall w, Inv w -> P (apply impl nodes m w)
                     | _ => True
                     end) l ->
  forall w,
    Inv w ->
    P (range_values
         (fun val w =>
            entering impl ns k w
            ;;; (fun w =>
                   match val with
                   | JObject mapValue => apply impl nodes mapValue w
                   | _ => applying impl ns k val w
                   end)
            ;;; exiting impl ns k) l w).
Proof.
  induction 1 as [|val l Hval _ IH]; intros w Hw.
  - apply P_ok, Hw.
  - cbn [range_values]. apply P_then; [|exact IH].
    apply P_then; [|intros w'; apply P_exiting].
    apply P_then; [apply P_entering, Hw|].
    intros w' Hw'. destruct val; try (apply P_applying, Hw').
    apply Hval, Hw'.
Qed.

Lemma traversal_doApply k v w :
  match v with
  | JObject m => forall w, Inv w -> P (apply impl nodes m w)
  | JArray l =>
      Forall (fun val => match val with
                         | JObject m => forall w, Inv w -> P (apply impl nodes m w)
                         | _ => True
                         end) l
  | _ => True
  end ->
  Inv w ->
  P (doApply impl nodes k v w).
Proof.
  intros Hv Hw. rewrite doApply_eq.
  assert (Hbody : forall ns w1, Inv w1 ->
            P match v with
              | JObject mapValue =>
                  entering impl ns k w1 ;;; apply impl nodes mapValue
                  ;;; exiting impl ns k
              | JArray arrValue =>
                  range_values
                    (fun val w =>
                       entering impl ns k w
                       ;;; (fun w =>
                              match val with
                              | JObject mapValue => apply impl nodes mapValue w
                              | _ => applying impl ns k val w
                              end)
                       ;;; exiting impl ns k)
                    arrValue w1
              | _ => applying impl ns k v w1
              end).
  { intros ns w1 Hw1. destruct v; try (apply P_applying, Hw1).
    - apply traversal_array; assumption.
    - apply P_then; [|intros w'; apply P_exiting].
      apply P_then; [apply P_entering, Hw1|exact Hv]. }
  unfold GetNextNodes.
  destruct (OnlyApplyThisNodeNextLevel (ctx w)) as [only|].
  - destruct (OnlyApplied (ctx w)).
    + apply P_keyed_id, Hbody. rewrite set_ctx_same. exact Hw.
    + apply P_keyed, Hbody, Inv_handed, Hw.
  - apply P_keyed_id, Hbody. rewrite set_ctx_same. exact Hw.
Qed.

Lemma traversal_apply m :
  Forall (fun kv => forall k w, Inv w -> P (doApply impl nodes k (snd kv) w)) m ->
  forall w, Inv w -> P (apply impl nodes m w).
Proof.
  intros Hm w Hw. rewrite apply_eq.
  destruct (OnlyApplyThisNode (ctx w)) as [only|]; [apply P_only, Hw|].
  rewrite Forall_forall in Hm. apply P_then.
  - destruct (lookup_key JSON_LD_TYPE m) as [v|] eqn:Ht.
    { destruct (lookup_key_In _ _ _ Ht) as [k' Hin].
      apply list_elem_of_In in Hin. exact (Hm _ Hin _ _ Hw). }
    destruct (lookup_key JSON_LD_TYPE_AS m) as [v|] eqn:Ha.
    { destruct (lookup_key_In _ _ _ Ha) as [k' Hin].
      apply list_elem_of_In in Hin. exact (Hm _ Hin _ _ Hw). }
    apply P_ok, Hw.
  - clear w Hw. rewrite <- Forall_forall in Hm.
    induction Hm as [|[k v] rest Hkv _ IH]; intros w Hw.
    + apply P_ok, Hw.
    + cbn [range_pairs]. apply P_then; [|exact IH].
      destruct (String.eqb k JSON_LD_CONTEXT); [apply P_ok, Hw|].
      destruct (String.eqb k JSON_LD_TYPE); [apply P_ok, Hw|].
      destruct (String.eqb k JSON_LD_TYPE_AS); [apply P_ok, Hw|].
      exact (Hkv _ _ Hw).
Qed.

Lemma traversal_value (v : value) :
  (forall k w, Inv w -> P (doApply impl nodes k v w))
  /\ match v with
     | JObject m => forall w, Inv w -> P (apply impl nodes m w)
     | _ => True
     end.
Proof.
  induction v as [|b|z|s|l IH|m IH] using value_nested_ind;
    try (split; [|exact I]; intros k w Hw; apply traversal_doApply; [exact I|exact Hw]).
  - split; [|exact I]. intros k w Hw. apply traversal_doApply; [|exact Hw].
    eapply Forall_impl; [exact IH|]. intros val [_ Hval]. exact Hval.
  - assert (Hm : forall w, Inv w -> P (apply impl nodes m w)).
    { apply traversal_apply.
      eapply Forall_impl; [exact IH|]. intros kv [Hkv _]. exact Hkv. }
    split; [|exact Hm]. intros k w Hw. apply traversal_doApply; assumption.
Qed.

Lemma traversal_ind :
  (forall k v w, Inv w -> P (doApply impl nodes k v w))
  /\ (forall m w, Inv w -> P (apply impl nodes m w)).
Proof.
  split.
  - intros k v. apply (traversal_value v).
  - intros m. exact (proj2 (traversal_value (JObject m))).
Qed.

End Traversal.

(** ** What a traversal keeps *)

Lemma firstNode_keeps impl (Inv : World -> Prop) :
  (forall op node key w, Inv w -> Inv (snd (call impl op node key w))) ->
  forall op ns key w, Inv w -> Inv (found_world (firstNode impl op ns key w)).
Proof.
  intros Hcall op ns key. induction ns as [|node rest IH]; intros w Hw.
  - rewrite firstNode_nil. exact Hw.
  - rewrite firstNode_cons. pose proof (Hcall op node key w Hw) as Hq.
    destruct (call impl op node key w) as [[applied err] w']. cbn [snd] in Hq.
    destruct applied; [exact Hq|]. destruct err; [exact Hq|].
    cbn [found_cons found_world]. apply IH, Hq.
Qed.

Lemma traversal_keeps impl nodes (Inv : World -> Prop) :
  (forall op node key w, Inv w -> Inv (snd (call impl op node key w))) ->
  (forall b w, Inv w -> Inv (set_ctx (set_OnlyApplied b (ctx w)) w)) ->
  (forall k v w, Inv w -> Inv (res_world (doApply impl nodes k v w)))
  /\ (forall m w, Inv w -> Inv (res_world (apply impl nodes m w))).
Proof.
  intros Hcall Hflag.
  apply (traversal_ind impl nodes Inv (fun r => Inv (res_world r))).
  - intros w H. exact H.
  - intros r k Hr Hk. destruct (res_err r) as [e|] eqn:E.
    + rewrite (and_then_err _ _ e E). exact Hr.
    + rewrite and_then_ok by exact E. apply Hk, Hr.
  - intros ns k w Hw. exact (firstNode_keeps impl Inv Hcall OpEnter ns k w Hw).
  - intros ns k w Hw. exact (firstNode_keeps impl Inv Hcall OpExit ns k w Hw).
  - intros ns k v w Hw. exact (firstNode_keeps impl Inv Hcall (OpApply v) ns k w Hw).
  - intros only m w Hw. pose proof (Hcall (OpApply (JObject m)) only "" w Hw) as Hq.
    cbn [call] in Hq. destruct (Apply (impl only) "" (JObject m) w) as [[applied err] w'].
    exact Hq.
  - exact Hflag.
  - intros k v b r Hr. apply Hflag, Hr.
  - intros k v r Hr. cbn. rewrite set_ctx_same. exact Hr.
Qed.

(** X18.  The engine keeps every property of the state that the handlers
    keep and that does not depend on the flag [OnlyApplied]: apart from
    that flag, the engine itself writes nothing to the context or the
    store. *)
Theorem engine_keeps_invariant impl (nodes : list RDFNode) (Inv : World -> Prop) :
  (forall op node key w, Inv w -> Inv (snd (call impl op node key w))) ->
  (forall b w, Inv w -> Inv (set_ctx (set_OnlyApplied b (ctx w)) w)) ->
  (forall k v w, Inv w -> Inv (res_world (doApply impl nodes k v w)))
  /\ (forall m w, Inv w -> Inv (res_world (apply impl nodes m w))).
Proof. exact (traversal_keeps impl nodes Inv). Qed.

Lemma engine_keeps_invariant_witness :
  length (Stack (ctx (res_world
            (apply (fun _ => accepts) [0]
               [("a", JArray [JNumber 1; JObject [("b", JNull)]])]
               (mkWorld (set_Stack [INil; INil] fresh_ctx) []))))) = 2.
Proof.
  apply (proj2 (engine_keeps_invariant (fun _ => accepts) [0]
                  (fun w => length (Stack (ctx w)) = 2)
                  ltac:(intros [| |v] node key w H; exact H)
                  ltac:(intros b w H; exact H))).
  reflexivity.
Defined.

Lemma armed_step impl nodes n k v w :
  quiet impl ->
  armed n (ctx w) ->
  override (ctx (res_world (doApply impl nodes k v w))) = (Some n, false).
Proof.
  intros Hquiet Harmed.
  rewrite doApply_eq, (GetNextNodes_armed nodes n _ Harmed).
  set (w1 := set_ctx (set_OnlyApplied true (ctx w)) w).
  assert (Hc : full (Some n, true)) by (right; reflexivity).
  assert (Hw1 : override (ctx w1) = (Some n, true)).
  { unfold armed, override in *. injection Harmed as H1 H2.
    subst w1. cbn. rewrite H1. reflexivity. }
  assert (Hv : match v with
               | JObject m =>
                   forall w, override (ctx w) = (Some n, true) ->
                             inner nodes (Some n, true) (apply impl nodes m w)
               | JArray l =>
                   Forall (fun val =>
                             match val with
                             | JObject m =>
                                 forall w, override (ctx w) = (Some n, true) ->
                                           inner nodes (Some n, true) (apply impl nodes m w)
                             | _ => True
                             end) l
               | _ => True
               end).
  { destruct v; try exact I.
    - apply Forall_forall. intros val _.
      exact (proj2 (inner_traversal impl nodes Hquiet (Some n, true) val Hc)).
    - exact (proj2 (inner_traversal impl nodes Hquiet (Some n, true) (JObject m) Hc)). }
  destruct (runs_body impl nodes Hquiet [n] (Some n, true) k v w1 Hv Hw1) as (Ho & _).
  unfold override in *. cbn. injection Ho as H1 _. rewrite H1. reflexivity.
Qed.

Lemma doApply_override impl nodes k v w :
  quiet impl ->
  override (ctx (res_world (doApply impl nodes k v w))) = override (ctx w).
Proof.
  intros Hquiet. destruct (override (ctx w)) as [[n|] [|]] eqn:E.
  - apply (inner_traversal impl nodes Hquiet (Some n, true) v); [right; reflexivity|exact E].
  - apply armed_step; assumption.
  - apply (inner_traversal impl nodes Hquiet (None, true) v); [left; reflexivity|exact E].
  - apply (inner_traversal impl nodes Hquiet (None, false) v); [left; reflexivity|exact E].
Qed.

Lemma apply_override impl nodes m w :
  quiet impl ->
  override (ctx (res_world (apply impl nodes m w))) = override (ctx w).
Proof.
  intros Hquiet. rewrite apply_eq.
  destruct (OnlyApplyThisNode (ctx w)) as [only|].
  - pose proof (Hquiet (OpApply (JObject m)) only "" w) as Hq. cbn [call] in Hq.
    destruct (Apply (impl only) "" (JObject m) w) as [[applied err] w']. exact Hq.
  - assert (Hthen : forall c (r : Res) (k : World -> Res),
               override (ctx (res_world r)) = c ->
               (forall w, override (ctx w) = c -> override (ctx (res_world (k w))) = c) ->
               override (ctx (res_world (r ;;; k))) = c).
    { intros c r k Hr Hk. destruct (res_err r) as [e|] eqn:E.
      - rewrite (and_then_err _ _ e E). exact Hr.
      - rewrite and_then_ok by exact E. apply Hk, Hr. }
    apply Hthen.
    + destruct (lookup_key JSON_LD_TYPE m); [apply doApply_override, Hquiet|].
      destruct (lookup_key JSON_LD_TYPE_AS m); [apply doApply_override, Hquiet|].
      reflexivity.
    + generalize (override (ctx w)). intros c. clear w.
      induction m as [|[k v] rest IH]; intros w Hw; [exact Hw|].
      cbn [range_pairs]. apply Hthen; [|exact IH].
      destruct (String.eqb k JSON_LD_CONTEXT); [exact Hw|].
      destruct (String.eqb k JSON_LD_TYPE); [exact Hw|].
      destruct (String.eqb k JSON_LD_TYPE_AS); [exact Hw|].
      rewrite doApply_override by exact Hquiet. exact Hw.
Qed.

(** X19.  When no handler sets or resets the next-level override, every
    dispatch and every traversal returns with the override as it found it:
    set or not, handed out or not.  The flag that the engine raises while a
    step runs is lowered again when the step returns, on success and on
    failure. *)
Theorem override_restored impl (nodes : list RDFNode) :
  quiet impl ->
  (forall k v w, override (ctx (res_world (doApply impl nodes k v w))) = override (ctx w))
  /\ (forall m w, override (ctx (res_world (apply impl nodes m w))) = override (ctx w)).
Proof.
  intros Hquiet. split.
  - intros k v w. apply doApply_override, Hquiet.
  - intros m w. apply apply_override, Hquiet.
Qed.

Lemma override_restored_witness :
  override (ctx (res_world
     (apply demo_impl [0] [("a", JObject [("b", JNumber 2)]); ("c", JNull)]
        (mkWorld (SetOnlyApplyThisNodeNextLevel 1 fresh_ctx) []))))
  = (Some 1, false).
Proof.
  apply (proj2 (override_restored demo_impl [0] demo_quiet)
           [("a", JObject [("b", JNumber 2)]); ("c", JNull)]
           (mkWorld (SetOnlyApplyThisNodeNextLevel 1 fresh_ctx) [])).
Defined.

Lemma read_only_quiet impl : read_only impl -> quiet impl.
Proof. intros H op node key w. rewrite H. reflexivity. Qed.

Lemma same_world w1 w2 :
  same_but_OnlyApplied w1 w2 -> override (ctx w1) = override (ctx w2) -> w1 = w2.
Proof.
  intros [Hh Hc] Ho. destruct w1 as [[r1 c1 n1 s1 o1 a1 t1] h1].
  destruct w2 as [[r2 c2 n2 s2 o2 a2 t2] h2].
  unfold override, set_OnlyApplied in *. cbn in *.
  inversion Hc. inversion Ho. subst. reflexivity.
Qed.

(** X20.  With handlers that only recognise keys and change nothing, a
    dispatch or a traversal returns the state exactly as it was given,
    whether it succeeds or fails. *)
Theorem read_only_traversal impl (nodes : list RDFNode) :
  read_only impl ->
  (forall k v w, res_world (doApply impl nodes k v w) = w)
  /\ (forall m w, res_world (apply impl nodes m w) = w).
Proof.
  intros Hro.
  assert (Hquiet := read_only_quiet impl Hro).
  assert (Hkeep : forall w0,
             (forall k v w, same_but_OnlyApplied w w0 ->
                            same_but_OnlyApplied (res_world (doApply impl nodes k v w)) w0)
             /\ (forall m w, same_but_OnlyApplied w w0 ->
                             same_but_OnlyApplied (res_world (apply impl nodes m w)) w0)).
  { intros w0. apply (traversal_keeps impl nodes (fun w => same_but_OnlyApplied w w0)).
    - intros op node key w H. rewrite Hro. exact H.
    - intros b w [Hh Hc]. split; [exact Hh|].
      destruct w as [[r c n s o a t] h]. cbn in *. exact Hc. }
  split.
  - intros k v w. apply same_world; [|apply doApply_override, Hquiet].
    apply (Hkeep w). split; reflexivity.
  - intros m w. apply same_world; [|apply apply_override, Hquiet].
    apply (Hkeep w). split; reflexivity.
Qed.

Lemma read_only_traversal_witness :
  res_world (apply (fun _ => accepts) [0]
               [("a", JArray [JNumber 1; JObject [("b", JNull)]])]
               (mkWorld (SetOnlyApplyThisNodeNextLevel 1 fresh_ctx) []))
  = mkWorld (SetOnlyApplyThisNodeNextLevel 1 fresh_ctx) [].
Proof.
  apply (proj2 (read_only_traversal (fun _ => accepts) [0]
                  ltac:(intros [| |v] node key w; reflexivity))).
Defined.

(** ** Success and claimed keys *)

Lemma firstNode_claimed impl op ns key w :
  found_err (firstNode impl op ns key w) = None
  <-> existsb claimed_by (found_tries (firstNode impl op ns key w)) = true.
Proof.
  revert w. induction ns as [|node rest IH]; intros w.
  - rewrite firstNode_nil. cbn. split; discriminate.
  - rewrite firstNode_cons.
    destruct (call impl op node key w) as [[applied err] w'].
    destruct applied.
    + cbn. destruct err; cbn; split; congruence.
    + destruct err as [e|]; [cbn; split; discriminate|].
      cbn [found_cons found_err found_tries existsb claimed_by try_applied andb orb].
      apply IH.
Qed.

Lemma claimed_singleton e : forallb claimed [e] = claimed e.
Proof. cbn. apply andb_true_r. Qed.

Lemma traversal_claimed impl nodes :
  (forall k v w,
      True ->
      res_err (doApply impl nodes k v w) = None
      <-> forallb claimed (res_log (doApply impl nodes k v w)) = true)
  /\ (forall m w,
      True ->
      res_err (apply impl nodes m w) = None
      <-> forallb claimed (res_log (apply impl nodes m w)) = true).
Proof.
  apply (traversal_ind impl nodes (fun _ => True)
           (fun r => res_err r = None <-> forallb claimed (res_log r) = true)).
  - intros w _. cbn. split; reflexivity.
  - intros r k Hr Hk. destruct (res_err r) as [e|] eqn:E.
    + rewrite (and_then_err _ _ e E). rewrite E. exact Hr.
    + rewrite and_then_ok by exact E. cbn [res_err res_log].
      rewrite forallb_app, (proj1 Hr eq_refl). apply Hk. exact I.
  - intros ns k w _. unfold entering. cbn [res_err res_log].
    rewrite claimed_singleton. exact (firstNode_claimed impl OpEnter ns k w).
  - intros ns k w _. unfold exiting. cbn [res_err res_log].
    rewrite claimed_singleton. exact (firstNode_claimed impl OpExit ns k w).
  - intros ns k v w _. unfold applying. cbn [res_err res_log].
    rewrite claimed_singleton. exact (firstNode_claimed impl (OpApply v) ns k w).
  - intros only m w _.
    destruct (Apply (impl only) "" (JObject m) w) as [[[|] [e|]] w'];
      cbn; split; congruence.
  - intros b w _. exact I.
  - intros k v b r Hr. unfold keyed, deferred. cbn [res_err res_log].
    rewrite claimed_singleton. exact Hr.
  - intros k v r Hr. unfold keyed, deferred. cbn [res_err res_log].
    rewrite claimed_singleton. exact Hr.
Qed.

Lemma entering_success impl ns k w :
  res_err (entering impl ns k w) = None ->
  exists e, res_log (entering impl ns k w) = [e]
            /\ search_key e = Some k /\ claimed e = true.
Proof.
  intros H. eexists. split; [reflexivity|]. split; [reflexivity|].
  exact (proj1 (firstNode_claimed impl OpEnter ns k w) H).
Qed.

Lemma applying_success impl ns k v w :
  res_err (applying impl ns k v w) = None ->
  exists e, res_log (applying impl ns k v w) = [e]
            /\ search_key e = Some k /\ claimed e = true.
Proof.
  intros H. eexists. split; [reflexivity|]. split; [reflexivity|].
  exact (proj1 (firstNode_claimed impl (OpApply v) ns k w) H).
Qed.

Lemma first_search_claimed impl nodes k v w :
  res_err (doApply impl nodes k v w) = None ->
  v <> JArray [] ->
  exists e rest,
    res_log (doApply impl nodes k v w) = [EvKey k v (e :: rest)]
    /\ search_key e = Some k /\ claimed e = true.
Proof.
  rewrite doApply_eq. destruct (GetNextNodes nodes (ctx w)) as [[ns clearFn] p].
  cbn [keyed deferred res_err res_log]. intros H Hv.
  assert (Hscalar : forall v', res_err (applying impl ns k v' (set_ctx p w)) = None ->
            exists e rest,
              [EvKey k v' (res_log (applying impl ns k v' (set_ctx p w)))]
              = [EvKey k v' (e :: rest)]
              /\ search_key e = Some k /\ claimed e = true).
  { intros v' H'. destruct (applying_success impl ns k v' _ H') as (e & -> & Hs & Hc).
    exists e, []. repeat split; assumption. }
  destruct v as [|b|z|s|l|m]; try (apply Hscalar, H).
  - destruct l as [|val l]; [destruct (Hv eq_refl)|].
    cbn [range_values] in *.
    pose proof H as H1. apply and_then_success in H1 as [Hbody _].
    pose proof Hbody as H2. apply and_then_success in H2 as [Hmid _].
    pose proof Hmid as H3. apply and_then_success in H3 as [Henter _].
    rewrite (and_then_ok _ _ Hbody), (and_then_ok _ _ Hmid), (and_then_ok _ _ Henter).
    cbn [res_log].
    destruct (entering_success impl ns k _ Henter) as (e & -> & Hs & Hc).
    eexists e, _. split; [|split; assumption]. cbn [app]. reflexivity.
  - pose proof H as H2. apply and_then_success in H2 as [Hmid _].
    pose proof Hmid as H3. apply and_then_success in H3 as [Henter _].
    rewrite (and_then_ok _ _ Hmid), (and_then_ok _ _ Henter).
    cbn [res_log].
    destruct (entering_success impl ns k _ Henter) as (e & -> & Hs & Hc).
    eexists e, _. split; [|split; assumption]. cbn [app]. reflexivity.
Qed.

(** X21.  A dispatch, a traversal and a parse whose context resolves
    succeed exactly when every search they made, at every depth, ended with
    a handler that reported "handled" and returned no error (and every
    whole-object delegation did so too).  A key that was dispatched with
    success had its first search (the apply for a scalar, the enter for an
    object or an array) claimed by a handler, unless its value is the empty
    array: for that value no search is made, and the key is accepted
    without any handler claiming it. *)
Theorem success_iff_claimed impl (nodes : list RDFNode) :
  (forall k v w,
      res_err (doApply impl nodes k v w) = None
      <-> forallb claimed (res_log (doApply impl nodes k v w)) = true)
  /\ (forall m w,
      res_err (apply impl nodes m w) = None
      <-> forallb claimed (res_log (apply impl nodes m w)) = true)
  /\ (forall registry input h ns,
      parseJSONLDContext registry input = (ns, None) ->
      parse_err (ParseVocabulary impl registry input h) = None
      <-> forallb claimed (parse_log (ParseVocabulary impl registry input h)) = true)
  /\ (forall k v w,
      res_err (doApply impl nodes k v w) = None ->
      v <> JArray [] ->
      exists e rest,
        res_log (doApply impl nodes k v w) = [EvKey k v (e :: rest)]
        /\ search_key e = Some k /\ claimed e = true)
  /\ (forall k w,
      res_err (doApply impl nodes k (JArray []) w) = None
      /\ res_log (doApply impl nodes k (JArray []) w) = [EvKey k (JArray []) []]).
Proof.
  split; [|split; [|split; [|split]]].
  - intros k v w. apply (proj1 (traversal_claimed impl nodes)). exact I.
  - intros m w. apply (proj2 (traversal_claimed impl nodes)). exact I.
  - intros registry input h ns Hp. unfold ParseVocabulary. rewrite Hp.
    cbn [parse_err parse_log].
    apply (proj2 (traversal_claimed impl (jsonLDNodes registry ++ ns))). exact I.
  - intros k v w. apply first_search_claimed.
  - intros k w. rewrite doApply_eq.
    destruct (GetNextNodes nodes (ctx w)) as [[ns clearFn] p]. split; reflexivity.
Qed.

Lemma success_iff_claimed_witness :
  forallb claimed
    (parse_log (ParseVocabulary demo_impl demo_registry
                  [("@context", JString "A"); ("name", JString "Note")] []))
  = true.
Proof.
  apply (proj1 (proj2 (proj2 (success_iff_claimed demo_impl [])))
           demo_registry [("@context", JString "A"); ("name", JString "Note")] [] [3]
           eq_refl).
  reflexivity.
Defined.
